(** * Backward chaining over first-order Horn clauses

    A shallow embedding of [backward_chaining_fol.py]: the term model,
    substitution application, unification with occurs check, the indexed
    knowledge base, renaming of clauses and the OR/AND proof search.

    Recursion is taken as unbounded (the recursion limit of the interpreter
    is not modelled) and is given a fuel argument: a function that runs out
    of fuel returns [None] (for the generators: the status [OutOfFuel]),
    which stands for a call that does not return. *)

From stdpp Require Import gmap strings list fin_maps pretty.

Set Warnings "-register-all,-clear-no-such-hyp".

(** ** Term model

    [Variable], [Constant], [Function] and [Predicate] are the four subclasses
    of [Expr]; the constructor of the class [Variable] is written [Var]. *)

Inductive Expr : Type :=
| Var (name : string)
| Constant (name : string)
| Function (name : string) (args : list Expr)
| Predicate (name : string) (args : list Expr).

(** The [__eq__] methods: same class, same name and, for the compounds, equal
    argument lists (Python compares lists by length and element by element). *)
Fixpoint Expr_eqb (x y : Expr) : bool :=
  let fix eqb_list (l k : list Expr) : bool :=
    match l, k with
    | [], [] => true
    | a :: l', b :: k' => Expr_eqb a b && eqb_list l' k'
    | _, _ => false
    end in
  match x, y with
  | Var v, Var w => bool_decide (v = w)
  | Constant c, Constant d => bool_decide (c = d)
  | Function f l, Function g k => bool_decide (f = g) && eqb_list l k
  | Predicate p l, Predicate q k => bool_decide (p = q) && eqb_list l k
  | _, _ => false
  end.

(** Equality of expressions is decidable; it is what the membership test of
    the [visited] set needs. *)
#[global] Instance Expr_eq_dec : EqDecision Expr.
Proof.
  refine (fix go (x y : Expr) {struct x} : Decision (x = y) :=
    match x, y with
    | Var v, Var w => cast_if (decide (v = w))
    | Constant c, Constant d => cast_if (decide (c = d))
    | Function f l, Function g k =>
        cast_if_and (decide (f = g)) (@list_eq_dec _ go l k)
    | Predicate p l, Predicate q k =>
        cast_if_and (decide (p = q)) (@list_eq_dec _ go l k)
    | _, _ => right _
    end); congruence.
Defined.

(** The attribute [name], which every subclass has, and the attribute [args],
    which only [Function] and [Predicate] have: reading it from a [Variable]
    or a [Constant] raises [AttributeError], modelled by [None]. *)
Definition name (x : Expr) : string :=
  match x with
  | Var n | Constant n | Function n _ | Predicate n _ => n
  end.

Definition args (x : Expr) : option (list Expr) :=
  match x with
  | Function _ l | Predicate _ l => Some l
  | Var _ | Constant _ => None
  end.

(** [__repr__]: the name, and for compounds the arguments joined by [", "]. *)
Fixpoint repr (x : Expr) : string :=
  match x with
  | Var n | Constant n => n
  | Function n l | Predicate n l =>
      (n ++ "(" ++ String.concat ", " (repr <$> l) ++ ")")%string
  end.

(** ** Substitutions

    A substitution is a Python dict keyed by [Variable]; two variables are the
    same key exactly when their names agree, so the dict is a finite map from
    variable names. *)
Abbreviation Subst := (gmap string Expr).

Definition is_variable (x : Expr) : bool :=
  match x with Var _ => true | _ => false end.

Definition is_compound (x : Expr) : bool :=
  match x with Function _ _ | Predicate _ _ => true | _ => false end.

(** [substitute(x, theta)]. *)
Fixpoint substitute (fuel : nat) (x : Expr) (theta : Subst) : option Expr :=
  match fuel with
  | 0 => None
  | S n =>
      match x with
      | Var v =>
          match theta !! v with
          | Some t => substitute n t theta
          | None => Some x
          end
      | Function f l => Function f <$> mapM (λ arg, substitute n arg theta) l
      | Predicate p l => Predicate p <$> mapM (λ arg, substitute n arg theta) l
      | Constant _ => Some x
      end
  end.

(** The loop of [occurs_check] over [x.args], for a given recursive call
    [rec]: it returns at the first argument in which the variable occurs. *)
Fixpoint occurs_check_args (rec : Expr → option bool) (l : list Expr)
  : option bool :=
  match l with
  | [] => Some false
  | arg :: l' =>
      b ← rec arg;
      if b : bool then Some true else occurs_check_args rec l'
  end.

(** [occurs_check(var, x, theta)]; [var] is given by its name. *)
Fixpoint occurs_check (fuel : nat) (var : string) (x : Expr) (theta : Subst)
  : option bool :=
  match fuel with
  | 0 => None
  | S n =>
      x ← substitute n x theta;
      if Expr_eqb (Var var) x then Some true
      else if is_compound x then
        occurs_check_args (λ arg, occurs_check n var arg theta)
          (default [] (args x))
      else Some false
  end.

(** [x.__class__ == y.__class__]. *)
Definition same_class (x y : Expr) : bool :=
  match x, y with
  | Var _, Var _ | Constant _, Constant _
  | Function _ _, Function _ _ | Predicate _ _, Predicate _ _ => true
  | _, _ => false
  end.

(** The loop of [unify] over [zip(x.args, y.args)], for a given recursive
    call [rec]: it stops at the first pair that fails. *)
Fixpoint unify_args (rec : Expr → Expr → option Subst → option (option Subst))
    (pairs : list (Expr * Expr)) (theta : Subst) : option (option Subst) :=
  match pairs with
  | [] => Some (Some theta)
  | (x_arg, y_arg) :: pairs' =>
      r ← rec x_arg y_arg (Some theta);
      match r with
      | None => Some None
      | Some theta' => unify_args rec pairs' theta'
      end
  end.

(** [unify(x, y, theta)] and [unify_var(var, x, theta)]. The outer option is
    the fuel; the inner one is Python's result, a dict or [None]. *)
Fixpoint unify (fuel : nat) (x y : Expr) (theta : option Subst)
  : option (option Subst) :=
  match fuel with
  | 0 => None
  | S n =>
      match theta with
      | None => Some None
      | Some th =>
          if Expr_eqb x y then Some (Some th)
          else
            x ← substitute n x th;
            y ← substitute n y th;
            match x, y with
            | Var v, _ => unify_var n v y th
            | _, Var w => unify_var n w x th
            | _, _ =>
                if is_compound x && is_compound y && same_class x y
                   && bool_decide (name x = name y)
                   && bool_decide (length (default [] (args x))
                                   = length (default [] (args y)))
                then unify_args (unify n)
                       (zip (default [] (args x)) (default [] (args y))) th
                else Some None
            end
      end
  end
with unify_var (fuel : nat) (var : string) (x : Expr) (theta : Subst)
  : option (option Subst) :=
  match fuel with
  | 0 => None
  | S n =>
      match theta !! var with
      | Some t => unify n t x (Some theta)
      | None =>
          match (match x with Var w => theta !! w | _ => None end) with
          | Some t => unify n (Var var) t (Some theta)
          | None =>
              b ← occurs_check n var x theta;
              if b : bool then Some None
              else Some (Some (<[var := x]> theta))
          end
      end
  end.

(** ** Unification on the heap

    The same two functions with the dicts as objects: the heap is the list of
    all dicts allocated so far, a dict is referred to by its position.
    [theta.copy()] allocates and [new_theta[var] = x] stores into the copy. *)
Abbreviation heap := (list Subst).

Definition deref (h : heap) (r : nat) : Subst := default ∅ (h !! r).

Fixpoint unify_args_ref
    (rec : Expr → Expr → option nat → heap → option (option nat * heap))
    (pairs : list (Expr * Expr)) (theta : nat) (h : heap)
  : option (option nat * heap) :=
  match pairs with
  | [] => Some (Some theta, h)
  | (x_arg, y_arg) :: pairs' =>
      '(r, h') ← rec x_arg y_arg (Some theta) h;
      match r with
      | None => Some (None, h')
      | Some theta' => unify_args_ref rec pairs' theta' h'
      end
  end.

Fixpoint unify_ref (fuel : nat) (x y : Expr) (theta : option nat) (h : heap)
  : option (option nat * heap) :=
  match fuel with
  | 0 => None
  | S n =>
      match theta with
      | None => Some (None, h)
      | Some r =>
          if Expr_eqb x y then Some (Some r, h)
          else
            x ← substitute n x (deref h r);
            y ← substitute n y (deref h r);
            match x, y with
            | Var v, _ => unify_var_ref n v y r h
            | _, Var w => unify_var_ref n w x r h
            | _, _ =>
                if is_compound x && is_compound y && same_class x y
                   && bool_decide (name x = name y)
                   && bool_decide (length (default [] (args x))
                                   = length (default [] (args y)))
                then unify_args_ref (unify_ref n)
                       (zip (default [] (args x)) (default [] (args y))) r h
                else Some (None, h)
            end
      end
  end
with unify_var_ref (fuel : nat) (var : string) (x : Expr) (theta : nat)
    (h : heap) : option (option nat * heap) :=
  match fuel with
  | 0 => None
  | S n =>
      match deref h theta !! var with
      | Some t => unify_ref n t x (Some theta) h
      | None =>
          match (match x with Var w => deref h theta !! w | _ => None end) with
          | Some t => unify_ref n (Var var) t (Some theta) h
          | None =>
              b ← occurs_check n var x (deref h theta);
              if b : bool then Some (None, h)
              else
                let new_theta := length h in
                let h1 := h ++ [deref h theta] in
                let h2 := <[new_theta := <[var := x]> (deref h1 new_theta)]> h1 in
                Some (Some new_theta, h2)
          end
      end
  end.

(** ** Knowledge base *)

Record Clause := mkClause { head : Expr; body : list Expr }.

(** [index] is the [defaultdict] of [defaultdict]s of lists:
    name -> arity -> clauses. *)
Record KnowledgeBase := mkKB {
  clauses : list Clause;
  index : gmap string (gmap nat (list Clause))
}.

Definition KnowledgeBase_init : KnowledgeBase := mkKB [] ∅.

(** How a call ends: it returns (for a generator: it is exhausted), it raises
    [AttributeError], or it is still running when the fuel is used up. *)
Inductive status := Finished | AttributeError | OutOfFuel.

(** [add_clause(clause)]. The clause is appended first; reading [head.args]
    of a head that is no compound then raises, with the index untouched. *)
Definition add_clause (kb : KnowledgeBase) (clause : Clause)
  : KnowledgeBase * status :=
  let clauses' := clauses kb ++ [clause] in
  match args (head clause) with
  | None => (mkKB clauses' (index kb), AttributeError)
  | Some l =>
      let by_arity := default ∅ (index kb !! name (head clause)) in
      let bucket := default [] (by_arity !! length l) in
      (mkKB clauses'
         (<[name (head clause) := <[length l := bucket ++ [clause]]> by_arity]>
            (index kb)),
       Finished)
  end.

(** A sequence of [add_clause] calls; it ends at the first one that raises. *)
Fixpoint add_clauses (kb : KnowledgeBase) (cs : list Clause)
  : KnowledgeBase * status :=
  match cs with
  | [] => (kb, Finished)
  | c :: cs' =>
      match add_clause kb c with
      | (kb', Finished) => add_clauses kb' cs'
      | r => r
      end
  end.

(** [fetch_clauses_for_goal(goal)]; [None] is [AttributeError]. *)
Definition fetch_clauses_for_goal (kb : KnowledgeBase) (goal : Expr)
  : option (list Clause) :=
  let by_arity := default ∅ (index kb !! name goal) in
  l ← args goal;
  Some (default [] (by_arity !! length l)).

(** ** Renaming *)

(** The fresh variable [Variable(f"_{expr.name}{_counter}")]. *)
Definition fresh (counter : nat) (v : string) : Expr :=
  Var ("_" ++ v ++ pretty counter)%string.

(** The inner function [rename] of [standardize_apart]; the dict [mapping] is
    threaded through the calls, left to right. *)
Fixpoint rename (counter : nat) (expr : Expr) (mapping : Subst) : Expr * Subst :=
  let fix rename_list (l : list Expr) (mapping : Subst) : list Expr * Subst :=
    match l with
    | [] => ([], mapping)
    | arg :: l' =>
        let '(arg', mapping) := rename counter arg mapping in
        let '(l'', mapping) := rename_list l' mapping in
        (arg' :: l'', mapping)
    end in
  match expr with
  | Var v =>
      match mapping !! v with
      | Some e => (e, mapping)
      | None => (fresh counter v, <[v := fresh counter v]> mapping)
      end
  | Function f l =>
      let '(l', mapping) := rename_list l mapping in (Function f l', mapping)
  | Predicate p l =>
      let '(l', mapping) := rename_list l mapping in (Predicate p l', mapping)
  | Constant _ => (expr, mapping)
  end.

(** [[rename(b) for b in clause.body]]. *)
Fixpoint rename_body (counter : nat) (l : list Expr) (mapping : Subst)
  : list Expr * Subst :=
  match l with
  | [] => ([], mapping)
  | b :: l' =>
      let '(b', mapping) := rename counter b mapping in
      let '(l'', mapping) := rename_body counter l' mapping in
      (b' :: l'', mapping)
  end.

(** [standardize_apart(clause)], with the global [_counter] passed in and
    returned. *)
Definition standardize_apart (clause : Clause) (_counter : nat) : Clause * nat :=
  let _counter := _counter + 1 in
  let '(new_head, mapping) := rename _counter (head clause) ∅ in
  let '(new_body, _) := rename_body _counter (body clause) mapping in
  (mkClause new_head new_body, _counter).

(** ** Backward chaining

    A generator is modelled by what it does when it is run to its end: the
    substitutions it yields, how it ends and the value of [_counter] then.
    The consumer of a generator is a continuation, called at each [yield]: the
    search of the consumer happens between two steps of the producer, which is
    the order in which [_counter] is incremented. An exception or the end of
    the fuel in the consumer ends the whole run. *)
Record run := mkRun {
  yielded : list Subst;
  ending : status;
  counter_after : nat
}.

(** [r], and then [k] if [r] came to its end. *)
Definition then_run (r : run) (k : nat → run) : run :=
  match ending r with
  | Finished =>
      let r' := k (counter_after r) in
      mkRun (yielded r ++ yielded r') (ending r') (counter_after r')
  | _ => r
  end.

(** An element of [visited]: [(repr(current), frozenset(theta.items()))]. Two
    frozensets of items are equal when the dicts are. *)
Definition visited_key (current : Expr) (theta : Subst) : string * Subst :=
  (repr current, theta).

(** The loop of [fol_bc_or] over the candidate clauses, for a given call of
    [unify] on a head and a given proof search [prove_body] for a body. *)
Fixpoint fol_bc_or_clauses (unify_head : Expr → option (option Subst))
    (prove_body : list Expr → Subst → nat → run)
    (consumer : Subst → nat → run)
    (candidates : list Clause) (_counter : nat) : run :=
  match candidates with
  | [] => mkRun [] Finished _counter
  | clause :: candidates' =>
      let '(clause_copy, _counter) := standardize_apart clause _counter in
      match unify_head (head clause_copy) with
      | None => mkRun [] OutOfFuel _counter
      | Some None =>
          fol_bc_or_clauses unify_head prove_body consumer candidates' _counter
      | Some (Some theta_prime) =>
          then_run
            (match body clause_copy with
             | [] => consumer theta_prime _counter
             | _ => prove_body (body clause_copy) theta_prime _counter
             end)
            (fol_bc_or_clauses unify_head prove_body consumer candidates')
      end
  end.

Fixpoint fol_bc_or (fuel : nat) (kb : KnowledgeBase) (goal : Expr)
    (theta : Subst) (visited : list (string * Subst))
    (consumer : Subst → nat → run) (_counter : nat) : run :=
  match fuel with
  | 0 => mkRun [] OutOfFuel _counter
  | S n =>
      match substitute n goal theta with
      | None => mkRun [] OutOfFuel _counter
      | Some current =>
          if bool_decide (visited_key current theta ∈ visited)
          then mkRun [] Finished _counter
          else
            let new_visited := visited_key current theta :: visited in
            match fetch_clauses_for_goal kb goal with
            | None => mkRun [] AttributeError _counter
            | Some candidates =>
                fol_bc_or_clauses
                  (λ head, unify n head current (Some theta))
                  (λ body theta_prime _counter,
                     fol_bc_and n kb body (Some theta_prime) new_visited
                       consumer _counter)
                  consumer candidates _counter
            end
      end
  end
with fol_bc_and (fuel : nat) (kb : KnowledgeBase) (goals : list Expr)
    (theta : option Subst) (visited : list (string * Subst))
    (consumer : Subst → nat → run) (_counter : nat) : run :=
  match fuel with
  | 0 => mkRun [] OutOfFuel _counter
  | S n =>
      match theta with
      | None => mkRun [] Finished _counter
      | Some theta =>
          match goals with
          | [] => consumer theta _counter
          | first :: rest =>
              fol_bc_or n kb first theta visited
                (λ theta_prime _counter,
                   fol_bc_and n kb rest (Some theta_prime) visited
                     consumer _counter)
                _counter
          end
      end
  end.

(** A query is one goal or a list of goals. *)
Inductive Query := SingleGoal (goal : Expr) | Conjunction (goals : list Expr).

(** The consumer of the generator that [ask] returns, when it takes every
    substitution: as [list(kb.ask(query))] does. *)
Definition collect (theta : Subst) (_counter : nat) : run :=
  mkRun [theta] Finished _counter.

(** [kb.ask(query)], run to its end. *)
Definition ask (fuel : nat) (kb : KnowledgeBase) (query : Query) (_counter : nat)
  : run :=
  match query with
  | Conjunction goals => fol_bc_and fuel kb goals (Some ∅) [] collect _counter
  | SingleGoal goal => fol_bc_or fuel kb goal ∅ [] collect _counter
  end.

(** The knowledge base of the example script. *)
Definition family_clauses : list Clause :=
  let x := Var "x" in let y := Var "y" in let z := Var "z" in
  [ mkClause (Predicate "father" [Constant "abe"; Constant "homer"]) [];
    mkClause (Predicate "father" [Constant "homer"; Constant "bart"]) [];
    mkClause (Predicate "mother" [Constant "mona"; Constant "bart"]) [];
    mkClause (Predicate "parent" [x; y]) [Predicate "father" [x; y]];
    mkClause (Predicate "parent" [x; y]) [Predicate "mother" [x; y]];
    mkClause (Predicate "grandparent" [x; z])
      [Predicate "parent" [x; y]; Predicate "parent" [y; z]];
    mkClause (Predicate "ancestor" [x; z]) [Predicate "parent" [x; z]];
    mkClause (Predicate "ancestor" [x; z])
      [Predicate "parent" [x; y]; Predicate "ancestor" [y; z]] ].

Definition family_kb : KnowledgeBase :=
  (add_clauses KnowledgeBase_init family_clauses).1.

(** * Specification

    The notions in which the properties of the program are stated. *)

Section Expr_induction.
Variable P : Expr → Prop.
Hypothesis HVar : ∀ v, P (Var v).
Hypothesis HConstant : ∀ c, P (Constant c).
Hypothesis HFunction : ∀ f args, Forall P args → P (Function f args).
Hypothesis HPredicate : ∀ p args, Forall P args → P (Predicate p args).

Fixpoint Expr_nested_ind (x : Expr) : P x :=
    match x with
    | Var v => HVar v
    | Constant c => HConstant c
    | Function f args =>
        HFunction f args
          ((fix go (l : list Expr) : Forall P l :=
              match l with
              | [] => Forall_nil_2 P
              | a :: l' => Forall_cons_2 P a l' (Expr_nested_ind a) (go l')
              end) args)
    | Predicate p args =>
        HPredicate p args
          ((fix go (l : list Expr) : Forall P l :=
              match l with
              | [] => Forall_nil_2 P
              | a :: l' => Forall_cons_2 P a l' (Expr_nested_ind a) (go l')
              end) args)
    end.
End Expr_induction.

(** The variable names that occur in an expression. *)
Fixpoint vars (x : Expr) : list string :=
  match x with
  | Var v => [v]
  | Constant _ => []
  | Function _ l | Predicate _ l => mjoin (vars <$> l)
  end.

(** Nesting depth, the fuel [substitute] needs on a term it leaves as it is. *)
Fixpoint height (x : Expr) : nat :=
  match x with
  | Var _ | Constant _ => 0
  | Function _ l | Predicate _ l => S (max_list (height <$> l))
  end.

(** [substitute x theta] returns [t]. *)
Definition resolves (theta : Subst) (x t : Expr) : Prop :=
  ∃ n, substitute n x theta = Some t.

(** No variable of [t] is bound by [theta]. *)
Definition resolved (theta : Subst) (t : Expr) : Prop :=
  ∀ v, v ∈ vars t → theta !! v = None.

(** [substitute] returns on every expression: the binding chains of [theta]
    are all finite. *)
Definition acyclic (theta : Subst) : Prop :=
  ∀ x, ∃ t, resolves theta x t.

(** The compound of the class and the name of [x] over other arguments. *)
Definition with_args (x : Expr) (l : list Expr) : Expr :=
  match x with
  | Function f _ => Function f l
  | Predicate p _ => Predicate p l
  | _ => x
  end.

(** What a successful call establishes: the result extends the substitution
    given, is acyclic and makes the two expressions resolve to one term. *)
Definition unifies (theta theta' : Subst) (x y : Expr) : Prop :=
  theta ⊆ theta' ∧ acyclic theta' ∧
  ∃ t, resolves theta' x t ∧ resolves theta' y t.

(** The substitutions that unification produces, starting from the empty
    one. *)
Inductive produced : Subst → Prop :=
| produced_empty : produced ∅
| produced_unify fuel x y theta theta' :
    produced theta → unify fuel x y (Some theta) = Some (Some theta') →
    produced theta'.

(** [s] occurs in [t] below the root. *)
Inductive proper_subterm (s : Expr) : Expr → Prop :=
| proper_subterm_arg t l :
    args t = Some l → s ∈ l → proper_subterm s t
| proper_subterm_below t l a :
    args t = Some l → a ∈ l → proper_subterm s a → proper_subterm s t.

(** What a call on the heap does, in terms of the function on values: the
    dicts that exist are left as they are, new ones come after them, and the
    dict returned is the one [unify] computes. *)
Definition refines (h : heap) (pure : option (option Subst))
    (r : option (option nat * heap)) : Prop :=
  match r with
  | None => pure = None
  | Some (res, h') =>
      h `prefix_of` h' ∧ pure = Some (deref h' <$> res) ∧
      ∀ r', res = Some r' → r' < length h'
  end.

(** The key of the bucket of a head: its name and its number of arguments. *)
Definition signature (x : Expr) : option (string * nat) :=
  l ← args x; Some (name x, length l).

(** The bucket of the index for a name and an arity. *)
Definition bucket (kb : KnowledgeBase) (nm : string) (arity : nat) : list Clause :=
  default [] (default ∅ (index kb !! nm) !! arity).

(** The index holds, under each key and in the order of insertion, the
    clauses whose head has that key. *)
Definition index_consistent (kb : KnowledgeBase) : Prop :=
  ∀ nm arity,
    bucket kb nm arity
    = filter (λ c, signature (head c) = Some (nm, arity)) (clauses kb).

(** The variables of a clause. *)
Definition clause_vars (c : Clause) : list string :=
  vars (head c) ++ mjoin (vars <$> body c).

(** A clause over two variables, the name of one being the name of the other
    followed by a digit. *)
Definition clause_x_x1 : Clause :=
  mkClause (Predicate "p" [Var "x"; Var "x1"]) [].

(** Replacing every variable [v] by [sigma v], in one pass. *)
Fixpoint inst (sigma : string → Expr) (x : Expr) : Expr :=
  match x with
  | Var v => sigma v
  | Constant _ => x
  | Function f l => Function f (inst sigma <$> l)
  | Predicate p l => Predicate p (inst sigma <$> l)
  end.

(** The dict [mapping] only ever holds the fresh variables of this copy. *)
Definition fresh_mapping (counter : nat) (mapping : Subst) : Prop :=
  ∀ v e, mapping !! v = Some e → e = fresh counter v.

(** The atoms that follow from a set of clauses: the instances of a head
    whose body instances all follow. *)
Inductive derivable (cs : list Clause) : Expr → Prop :=
| derivable_clause c sigma :
    c ∈ cs →
    (∀ b, b ∈ body c → derivable cs (inst sigma b)) →
    derivable cs (inst sigma (head c)).

(** Under [theta], the goal resolves to an atom that follows from [cs]. *)
Definition proves (cs : list Clause) (theta : Subst) (goal : Expr) : Prop :=
  ∃ t, resolves theta goal t ∧ derivable cs t.

(** Every substitution that a run yields satisfies [P]. *)
Definition yields_only (P : Subst → Prop) (r : run) : Prop :=
  Forall P (yielded r).

(** What [substitute] with fuel [n] makes of each variable. *)
Definition resolution (n : nat) (theta : Subst) (v : string) : Expr :=
  default (Var v) (substitute n (Var v) theta).

(** The goals of a query. *)
Definition query_goals (query : Query) : list Expr :=
  match query with
  | SingleGoal goal => [goal]
  | Conjunction goals => goals
  end.

(** The query [ancestor(x, bart)] of the example script. *)
Definition ancestor_of_bart : Query :=
  SingleGoal (Predicate "ancestor" [Var "x"; Constant "bart"]).

(** What a run binds the variable [x] to, one term for each substitution
    yielded. *)
Definition answers (fuel : nat) (r : run) : list (option Expr) :=
  (λ theta, substitute fuel (Var "x") theta) <$> yielded r.

(** A knowledge base of one fact, [p(X, X)], and a ground instance of it. *)
Definition reflexive_clauses : list Clause :=
  [mkClause (Predicate "p" [Var "X"; Var "X"]) []].

Definition reflexive_kb : KnowledgeBase :=
  (add_clauses KnowledgeBase_init reflexive_clauses).1.

Definition p_c_c : Expr := Predicate "p" [Constant "c"; Constant "c"].

(** A variable that [theta] binds or that occurs in a term bound by [theta]. *)
Definition mentions (theta : Subst) (v : string) : Prop :=
  is_Some (theta !! v) ∨ ∃ w t, theta !! w = Some t ∧ v ∈ vars t.

(** The number of constructors of a term. *)
Fixpoint term_size (x : Expr) : nat :=
  match x with
  | Var _ | Constant _ => 1
  | Function _ l | Predicate _ l => S (sum_list (term_size <$> l))
  end.

(** A consumer for each amount of fuel, the same from the fuel on with which
    it comes to its end. *)
Definition stable (K : nat → Subst → nat → run) : Prop :=
  ∀ (n m : nat) theta c,
    n ≤ m → ending (K n theta c) = Finished → K m theta c = K n theta c.

(** With enough fuel the consumer comes to its end on an acyclic
    substitution. *)
Definition finishes (K : nat → Subst → nat → run) : Prop :=
  ∀ theta c, acyclic theta → ∃ n, ending (K n theta c) = Finished.

(** * Properties *)

(** ** Equality *)

Lemma Expr_eqb_spec (x y : Expr) : Expr_eqb x y = true ↔ x = y.
Proof.
  revert y. induction x as [v|c|f l IH|p l IH] using Expr_nested_ind;
    intros [w|d|g k|q k]; simpl; try (split; [discriminate | congruence]).
  - rewrite bool_decide_eq_true. split; congruence.
  - rewrite bool_decide_eq_true. split; congruence.
  - rewrite andb_true_iff, bool_decide_eq_true.
    assert (Hl : ∀ k, (fix eqb_list (l k : list Expr) : bool :=
                match l, k with
                | [], [] => true
                | a :: l', b :: k' => Expr_eqb a b && eqb_list l' k'
                | _, _ => false
                end) l k = true ↔ l = k).
    { clear k. induction IH as [|a l Ha _ IHl]; intros [|b k];
        try (split; [discriminate | congruence]); [done |].
      rewrite andb_true_iff, Ha, IHl. split; [intros [-> ->]; done | by inversion 1]. }
    rewrite Hl. split; [intros [-> ->]; done | by inversion 1].
  - rewrite andb_true_iff, bool_decide_eq_true.
    assert (Hl : ∀ k, (fix eqb_list (l k : list Expr) : bool :=
                match l, k with
                | [], [] => true
                | a :: l', b :: k' => Expr_eqb a b && eqb_list l' k'
                | _, _ => false
                end) l k = true ↔ l = k).
    { clear k. induction IH as [|a l Ha _ IHl]; intros [|b k];
        try (split; [discriminate | congruence]); [done |].
      rewrite andb_true_iff, Ha, IHl. split; [intros [-> ->]; done | by inversion 1]. }
    rewrite Hl. split; [intros [-> ->]; done | by inversion 1].
Qed.

#[local] Arguments Expr_eqb : simpl never.

Lemma Expr_eqb_decide (x y : Expr) : Expr_eqb x y = bool_decide (x = y).
Proof.
  destruct (Expr_eqb x y) eqn:E; symmetry.
  - by apply bool_decide_eq_true, Expr_eqb_spec.
  - apply bool_decide_eq_false. intros H. apply Expr_eqb_spec in H. congruence.
Qed.

(** ** Basic facts on [substitute] *)

Lemma substitute_mono (n m : nat) x theta t :
  n ≤ m → substitute n x theta = Some t → substitute m x theta = Some t.
Proof.
  revert m x t. induction n as [|n IH]; intros m x t Hle H; [discriminate|].
  destruct m as [|m]; [lia|]. simpl in *.
  destruct x as [v|c|f l|p l]; [destruct (theta !! v); eauto with lia | done | |].
  all: destruct (mapM _ l) as [k|] eqn:E; simplify_eq/=.
  all: apply mapM_Some in E; erewrite (mapM_Some_2 _ l k); [done|].
  all: eapply Forall2_impl; [exact E|]; intros; eapply IH; [lia | done].
Qed.

Lemma resolves_fun theta x t1 t2 :
  resolves theta x t1 → resolves theta x t2 → t1 = t2.
Proof.
  intros [n Hn] [m Hm].
  apply (substitute_mono n (n `max` m)) in Hn; [|lia].
  apply (substitute_mono m (n `max` m)) in Hm; [|lia]. congruence.
Qed.

(** A list of results can be computed with one amount of fuel. *)
Lemma resolves_list theta (l k : list Expr) :
  Forall2 (resolves theta) l k →
  ∃ n, Forall2 (λ x t, substitute n x theta = Some t) l k.
Proof.
  induction 1 as [|x t l k [n Hn] _ [m Hm]]; [exists 0; constructor|].
  exists (n `max` m). constructor.
  - eapply substitute_mono; [|done]. lia.
  - eapply Forall2_impl; [exact Hm|]. intros ?? Hx; simpl in Hx.
    eapply substitute_mono; [|exact Hx]. lia.
Qed.

Lemma resolves_Var_bound theta v u t :
  theta !! v = Some u → resolves theta (Var v) t ↔ resolves theta u t.
Proof.
  intros Hv. split; intros [n Hn].
  - destruct n; simplify_eq/=. rewrite Hv in Hn. by exists n.
  - exists (S n). simpl. by rewrite Hv.
Qed.

Lemma resolves_Var_free theta v t :
  theta !! v = None → resolves theta (Var v) t ↔ t = Var v.
Proof.
  intros Hv. split.
  - intros [[|n] Hn]; simplify_eq/=. rewrite Hv in Hn. congruence.
  - intros ->. exists 1. simpl. by rewrite Hv.
Qed.

Lemma resolves_Constant theta c t : resolves theta (Constant c) t ↔ t = Constant c.
Proof.
  split; [intros [[|n] Hn]; simplify_eq/=; done | intros ->; by exists 1].
Qed.

Lemma resolves_Function theta f l t :
  resolves theta (Function f l) t ↔
  ∃ k, t = Function f k ∧ Forall2 (resolves theta) l k.
Proof.
  split.
  - intros [[|n] Hn]; simplify_eq/=.
    destruct (mapM _ l) as [k|] eqn:E; simplify_eq/=.
    exists k. split; [done|]. apply mapM_Some in E.
    eapply Forall2_impl; [exact E|]. intros x y Hxy. by exists n.
  - intros (k & -> & Hk). apply resolves_list in Hk as [n Hn].
    exists (S n). simpl. by rewrite (mapM_Some_2 _ l k).
Qed.

Lemma resolves_Predicate theta p l t :
  resolves theta (Predicate p l) t ↔
  ∃ k, t = Predicate p k ∧ Forall2 (resolves theta) l k.
Proof.
  split.
  - intros [[|n] Hn]; simplify_eq/=.
    destruct (mapM _ l) as [k|] eqn:E; simplify_eq/=.
    exists k. split; [done|]. apply mapM_Some in E.
    eapply Forall2_impl; [exact E|]. intros x y Hxy. by exists n.
  - intros (k & -> & Hk). apply resolves_list in Hk as [n Hn].
    exists (S n). simpl. by rewrite (mapM_Some_2 _ l k).
Qed.

Lemma resolved_compound theta x l :
  args x = Some l → resolved theta x ↔ Forall (resolved theta) l.
Proof.
  intros Hx. rewrite Forall_forall. unfold resolved.
  assert (Hv : ∀ v, v ∈ vars x ↔ ∃ a, a ∈ l ∧ v ∈ vars a).
  { intros v. destruct x; simplify_eq/=; rewrite list_elem_of_join;
      setoid_rewrite list_elem_of_fmap; naive_solver. }
  setoid_rewrite Hv. naive_solver.
Qed.

(** The result of [substitute] has no bound variable left. *)
Lemma substitute_resolved n x theta t :
  substitute n x theta = Some t → resolved theta t.
Proof.
  revert x t. induction n as [|n IH]; intros x t H; [discriminate|]. simpl in H.
  destruct x as [v|c|f l|p l].
  - destruct (theta !! v) eqn:Hv; [eauto|]. simplify_eq.
    intros w Hw. simpl in Hw. apply list_elem_of_singleton in Hw. by subst.
  - simplify_eq. intros w Hw. simpl in Hw. by apply elem_of_nil in Hw.
  - destruct (mapM _ l) as [k|] eqn:E; simplify_eq/=.
    apply (resolved_compound _ _ k); [done|]. apply mapM_Some in E.
    eapply Forall2_Forall_r; [exact E|]. apply Forall_forall. eauto.
  - destruct (mapM _ l) as [k|] eqn:E; simplify_eq/=.
    apply (resolved_compound _ _ k); [done|]. apply mapM_Some in E.
    eapply Forall2_Forall_r; [exact E|]. apply Forall_forall. eauto.
Qed.

Lemma resolves_resolved theta x t : resolves theta x t → resolved theta t.
Proof. intros [n Hn]. eauto using substitute_resolved. Qed.

(** [substitute] leaves a term without bound variables as it is. *)
Lemma resolved_resolves theta t : resolved theta t → resolves theta t t.
Proof.
  induction t as [v|c|f l IH|p l IH] using Expr_nested_ind; intros Ht.
  - apply resolves_Var_free; [|done]. apply Ht. simpl. apply list_elem_of_here.
  - by apply resolves_Constant.
  - apply resolves_Function. exists l. split; [done|].
    apply (resolved_compound _ _ l) in Ht; [|done].
    apply Forall_Forall2_diag. rewrite Forall_forall in IH, Ht |- *. auto.
  - apply resolves_Predicate. exists l. split; [done|].
    apply (resolved_compound _ _ l) in Ht; [|done].
    apply Forall_Forall2_diag. rewrite Forall_forall in IH, Ht |- *. auto.
Qed.

Lemma resolves_idem theta x t : resolves theta x t → resolves theta t t.
Proof. intros H. by eapply resolved_resolves, resolves_resolved. Qed.

Lemma resolves_empty x : resolves ∅ x x.
Proof. apply resolved_resolves. intros v _. apply lookup_empty. Qed.

Lemma acyclic_empty : acyclic ∅.
Proof. intros x. exists x. apply resolves_empty. Qed.

(** ** Extending a substitution *)

Lemma Forall2_join_l {A} (P Q R : A → A → Prop) (l k m : list A) :
  (∀ x y z, P x y → Q x z → R y z) →
  Forall2 P l k → Forall2 Q l m → Forall2 R k m.
Proof.
  intros H HP. revert m. induction HP; intros m HQ; inversion HQ; subst;
    constructor; eauto.
Qed.

Lemma Forall2_join_r {A} (P Q R : A → A → Prop) (l k m : list A) :
  (∀ x y z, P x y → Q y z → R x z) →
  Forall2 P l k → Forall2 Q k m → Forall2 R l m.
Proof.
  intros H HP. revert m. induction HP; intros m HQ; inversion HQ; subst;
    constructor; eauto.
Qed.

(** Resolving under a larger substitution can go through the result under the
    smaller one. *)
Lemma substitute_weaken n (theta theta' : Subst) x t1 t2 :
  theta ⊆ theta' → substitute n x theta = Some t1 →
  resolves theta' x t2 ↔ resolves theta' t1 t2.
Proof.
  intros Hsub. revert x t1 t2.
  induction n as [|n IH]; intros x t1 t2 H; [discriminate|]. simpl in H.
  destruct x as [v|c|f l|p l].
  - destruct (theta !! v) as [u|] eqn:Hv; [|by simplify_eq].
    rewrite (resolves_Var_bound theta' v u); [by apply IH|].
    by eapply lookup_weaken.
  - by simplify_eq.
  - destruct (mapM _ l) as [k|] eqn:E; simplify_eq/=. apply mapM_Some in E.
    rewrite !resolves_Function. split; intros (m & -> & Hm); exists m; (split; [done|]).
    + eapply (Forall2_join_l _ _ _ l); [|exact E|exact Hm].
      intros x y z Hxy Hxz. simpl in Hxy. by apply (IH x).
    + eapply (Forall2_join_r _ _ _ l k); [|exact E|exact Hm].
      intros x y z Hxy Hyz. simpl in Hxy. by apply (IH x y).
  - destruct (mapM _ l) as [k|] eqn:E; simplify_eq/=. apply mapM_Some in E.
    rewrite !resolves_Predicate. split; intros (m & -> & Hm); exists m; (split; [done|]).
    + eapply (Forall2_join_l _ _ _ l); [|exact E|exact Hm].
      intros x y z Hxy Hxz. simpl in Hxy. by apply (IH x).
    + eapply (Forall2_join_r _ _ _ l k); [|exact E|exact Hm].
      intros x y z Hxy Hyz. simpl in Hxy. by apply (IH x y).
Qed.

Lemma resolves_weaken (theta theta' : Subst) x t1 t2 :
  theta ⊆ theta' → resolves theta x t1 →
  resolves theta' x t2 ↔ resolves theta' t1 t2.
Proof. intros Hsub [n Hn]. by eapply substitute_weaken. Qed.

(** Two expressions that resolve to the same term keep doing so under every
    acyclic extension. *)
Lemma resolves_eq_weaken (theta theta' : Subst) x y t :
  theta ⊆ theta' → acyclic theta' →
  resolves theta x t → resolves theta y t →
  ∃ t', resolves theta' x t' ∧ resolves theta' y t'.
Proof.
  intros Hsub Hac Hx Hy. destruct (Hac t) as [t' Ht']. exists t'.
  split; by eapply resolves_weaken.
Qed.

(** Binding a fresh variable to an expression whose resolved form does not
    contain it keeps the substitution acyclic. *)
Lemma resolves_insert (theta : Subst) v x x1 t :
  theta !! v = None → resolves theta x x1 → v ∉ vars x1 →
  resolved theta t →
  ∃ t', resolves (<[v := x]> theta) t t'.
Proof.
  intros Hv Hx Hnot.
  assert (Hsub : theta ⊆ <[v := x]> theta) by by apply insert_subseteq.
  assert (Hx1 : resolves (<[v := x]> theta) x x1).
  { eapply resolves_weaken; [done..|]. apply resolved_resolves.
    intros w Hw. rewrite lookup_insert_ne by (intros ->; done).
    by eapply resolves_resolved. }
  induction t as [w|c|f l IH|p l IH] using Expr_nested_ind; intros Ht.
  - destruct (decide (w = v)) as [->|Hne].
    + exists x1. eapply resolves_Var_bound; [apply lookup_insert_eq|done].
    + exists (Var w). apply resolves_Var_free; [|done].
      rewrite lookup_insert_ne by done. apply Ht. simpl. apply list_elem_of_here.
  - eexists. by apply resolves_Constant.
  - apply (resolved_compound _ _ l) in Ht; [|done].
    assert (∃ k, Forall2 (resolves (<[v := x]> theta)) l k) as [k Hk].
    { clear -IH Ht. induction IH as [|a l Ha _ IHl]; [by exists []|].
      inversion Ht; subst. destruct Ha as [a' Ha']; [done|].
      destruct IHl as [k Hk]; [done|]. exists (a' :: k). by constructor. }
    exists (Function f k). apply resolves_Function. eauto.
  - apply (resolved_compound _ _ l) in Ht; [|done].
    assert (∃ k, Forall2 (resolves (<[v := x]> theta)) l k) as [k Hk].
    { clear -IH Ht. induction IH as [|a l Ha _ IHl]; [by exists []|].
      inversion Ht; subst. destruct Ha as [a' Ha']; [done|].
      destruct IHl as [k Hk]; [done|]. exists (a' :: k). by constructor. }
    exists (Predicate p k). apply resolves_Predicate. eauto.
Qed.

Lemma acyclic_insert (theta : Subst) v x x1 :
  acyclic theta → theta !! v = None → resolves theta x x1 → v ∉ vars x1 →
  acyclic (<[v := x]> theta) ∧
  resolves (<[v := x]> theta) (Var v) x1 ∧ resolves (<[v := x]> theta) x x1.
Proof.
  intros Hac Hv Hx Hnot.
  assert (Hsub : theta ⊆ <[v := x]> theta) by by apply insert_subseteq.
  assert (Hx1 : resolves (<[v := x]> theta) x x1).
  { eapply resolves_weaken; [done..|]. apply resolved_resolves.
    intros w Hw. rewrite lookup_insert_ne by (intros ->; done).
    by eapply resolves_resolved. }
  split; [|split; [|done]].
  - intros t. destruct (Hac t) as [t1 Ht1].
    destruct (resolves_insert theta v x x1 t1) as [t' Ht'];
      eauto using resolves_resolved.
    exists t'. by eapply resolves_weaken.
  - eapply resolves_Var_bound; [apply lookup_insert_eq|done].
Qed.

(** ** The occurs check *)

Lemma elem_of_vars_compound x l v :
  args x = Some l → v ∈ vars x ↔ ∃ a, a ∈ l ∧ v ∈ vars a.
Proof.
  intros Hx. destruct x; simplify_eq/=; rewrite list_elem_of_join;
    setoid_rewrite list_elem_of_fmap; naive_solver.
Qed.

Lemma height_compound x l a : args x = Some l → a ∈ l → height a < height x.
Proof.
  intros Hx Ha.
  assert (height a ≤ max_list (height <$> l)).
  { apply max_list_elem_of_le, list_elem_of_fmap. eauto. }
  destruct x; simplify_eq/=; lia.
Qed.

Lemma substitute_resolved_id theta t (n : nat) :
  resolved theta t → height t < n → substitute n t theta = Some t.
Proof.
  revert n. induction t as [v|c|f l IH|p l IH] using Expr_nested_ind;
    intros n Ht Hn; (destruct n as [|n]; [lia|]); simpl.
  - rewrite (Ht v); [done|]. simpl. apply list_elem_of_here.
  - done.
  - rewrite (mapM_Some_2 _ l l); [done|]. apply Forall_Forall2_diag.
    apply (resolved_compound _ _ l) in Ht; [|done].
    rewrite Forall_forall in IH, Ht |- *. intros a Ha. apply IH; auto.
    pose proof (height_compound (Function f l) l a eq_refl Ha). simpl in *. lia.
  - rewrite (mapM_Some_2 _ l l); [done|]. apply Forall_Forall2_diag.
    apply (resolved_compound _ _ l) in Ht; [|done].
    rewrite Forall_forall in IH, Ht |- *. intros a Ha. apply IH; auto.
    pose proof (height_compound (Predicate p l) l a eq_refl Ha). simpl in *. lia.
Qed.

Lemma occurs_check_S n var x theta :
  occurs_check (S n) var x theta =
  x ← substitute n x theta;
  if decide (Var var = x) then Some true
  else match args x with
       | Some l => occurs_check_args (λ arg, occurs_check n var arg theta) l
       | None => Some false
       end.
Proof.
  simpl. destruct (substitute n x theta) as [x1|]; [simpl|done].
  rewrite Expr_eqb_decide. destruct (decide (Var var = x1)).
  - by rewrite bool_decide_eq_true_2.
  - rewrite bool_decide_eq_false_2 by done. by destruct x1.
Qed.

Lemma occurs_check_args_sound (rec : Expr → option bool) v l b :
  (∀ a c, a ∈ l → rec a = Some c → (c = true ↔ v ∈ vars a)) →
  occurs_check_args rec l = Some b →
  b = true ↔ ∃ a, a ∈ l ∧ v ∈ vars a.
Proof.
  induction l as [|a l IH]; intros Hrec H; simpl in H.
  - simplify_eq. split; [done|]. intros (a & Ha & _). by apply elem_of_nil in Ha.
  - destruct (rec a) as [c|] eqn:Ha; simplify_eq/=.
    pose proof (Hrec a c (list_elem_of_here _ _) Ha) as Hc. destruct c.
    + simplify_eq. split; [|done]. intros _. exists a. split; [left|by apply Hc].
    + rewrite IH; [| |done].
      * split; intros (a' & Ha' & Hv); [exists a'; split; [by right|done]|].
        apply elem_of_cons in Ha' as [->|Ha']; [|by eauto].
        apply Hc in Hv. discriminate.
      * intros a' c' Ha'. apply Hrec. by right.
Qed.

(** What the occurs check answers: whether the variable occurs in the
    resolved form of [x]. *)
Lemma occurs_check_sound n v x theta b :
  occurs_check n v x theta = Some b →
  ∃ x1, resolves theta x x1 ∧ (b = true ↔ v ∈ vars x1).
Proof.
  revert x b. induction n as [|n IH]; intros x b H; [discriminate|].
  rewrite occurs_check_S in H.
  destruct (substitute n x theta) as [x1|] eqn:Hx; simplify_eq/=.
  exists x1. split; [by exists n|].
  destruct (decide (Var v = x1)) as [<-|Hne].
  { simplify_eq. split; [|done]. intros _. simpl. apply list_elem_of_here. }
  destruct (args x1) as [l|] eqn:Hargs.
  - rewrite (elem_of_vars_compound x1 l) by done.
    eapply occurs_check_args_sound; [|exact H].
    intros a c Ha Hc. simpl in Hc. apply IH in Hc as (a1 & Ha1 & Hiff).
    assert (resolves theta a a) as Haa.
    { apply resolved_resolves. apply substitute_resolved in Hx.
      apply (resolved_compound _ _ l) in Hx; [|done].
      rewrite Forall_forall in Hx. auto. }
    by rewrite (resolves_fun _ _ _ _ Haa Ha1).
  - simplify_eq. split; [done|]. intros Hv.
    destruct x1; simplify_eq/=; [|by apply elem_of_nil in Hv].
    apply list_elem_of_singleton in Hv. congruence.
Qed.

Lemma occurs_check_args_total (rec : Expr → option bool) l :
  (∀ a, a ∈ l → is_Some (rec a)) → is_Some (occurs_check_args rec l).
Proof.
  induction l as [|a l IH]; intros Hrec; simpl; [done|].
  destruct (Hrec a) as [c Hc]; [left|]. rewrite Hc. simpl.
  destruct c; [done|]. apply IH. intros a' Ha'. apply Hrec. by right.
Qed.

Lemma occurs_check_resolved_total theta v t (n : nat) :
  resolved theta t → S (height t) < n → is_Some (occurs_check n v t theta).
Proof.
  revert n. induction t as [t IH] using (induction_ltof1 _ height).
  unfold ltof in IH. intros n Ht Hn. destruct n as [|n]; [lia|].
  rewrite occurs_check_S, (substitute_resolved_id theta t n) by (done || lia).
  simpl. destruct (decide _); [done|]. destruct (args t) as [l|] eqn:Hl; [|done].
  apply occurs_check_args_total. intros a Ha.
  pose proof (height_compound t l a Hl Ha).
  apply IH; [done| |lia].
  apply (resolved_compound _ _ l) in Ht; [|done]. rewrite Forall_forall in Ht. auto.
Qed.

(** The occurs check returns, given enough fuel. *)
Lemma occurs_check_total theta v x x1 (n0 n : nat) :
  substitute n0 x theta = Some x1 → n0 < n → S (height x1) < n →
  is_Some (occurs_check n v x theta).
Proof.
  intros Hx Hn0 Hn. destruct n as [|n]; [lia|].
  rewrite occurs_check_S, (substitute_mono n0 n x theta x1) by (done || lia).
  simpl. destruct (decide _); [done|]. destruct (args x1) as [l|] eqn:Hl; [|done].
  apply occurs_check_args_total. intros a Ha.
  pose proof (height_compound x1 l a Hl Ha).
  apply occurs_check_resolved_total; [|lia].
  apply substitute_resolved in Hx.
  apply (resolved_compound _ _ l) in Hx; [|done]. rewrite Forall_forall in Hx. auto.
Qed.

(** ** Soundness of unification *)

Lemma resolves_compound theta x l t :
  args x = Some l →
  resolves theta x t ↔ ∃ k, t = with_args x k ∧ Forall2 (resolves theta) l k.
Proof.
  intros Hx. destruct x; simplify_eq/=;
    [apply resolves_Function | apply resolves_Predicate].
Qed.

Lemma with_args_same x y k :
  is_Some (args x) → is_Some (args y) → same_class x y = true →
  name x = name y → with_args x k = with_args y k.
Proof. intros [? Hx] [? Hy]. destruct x, y; simplify_eq/=; congruence. Qed.

Lemma unify_S n x y theta :
  unify (S n) x y theta =
  match theta with
  | None => Some None
  | Some th =>
      if decide (x = y) then Some (Some th)
      else
        x ← substitute n x th;
        y ← substitute n y th;
        match x, y with
        | Var v, _ => unify_var n v y th
        | _, Var w => unify_var n w x th
        | _, _ =>
            match args x, args y with
            | Some xs, Some ys =>
                if same_class x y && bool_decide (name x = name y)
                   && bool_decide (length xs = length ys)
                then unify_args (unify n) (zip xs ys) th
                else Some None
            | _, _ => Some None
            end
        end
  end.
Proof.
  simpl. destruct theta as [th|]; [|done].
  rewrite Expr_eqb_decide. destruct (decide (x = y)).
  { by rewrite bool_decide_eq_true_2. }
  rewrite bool_decide_eq_false_2 by done.
  destruct (substitute n x th) as [x1|]; [simpl|done].
  destruct (substitute n y th) as [y1|]; [simpl|done].
  by destruct x1, y1.
Qed.

Lemma unify_var_S n var x theta :
  unify_var (S n) var x theta =
  match theta !! var with
  | Some t => unify n t x (Some theta)
  | None =>
      match (match x with Var w => theta !! w | _ => None end) with
      | Some t => unify n (Var var) t (Some theta)
      | None =>
          b ← occurs_check n var x theta;
          if b : bool then Some None
          else Some (Some (<[var := x]> theta))
      end
  end.
Proof. done. Qed.

Lemma unifies_sym theta theta' x y :
  unifies theta theta' x y → unifies theta theta' y x.
Proof. intros (? & ? & t & ? & ?). repeat split; eauto. Qed.

Lemma unify_args_sound (rec : Expr → Expr → option Subst → option (option Subst))
    pairs theta theta' :
  (∀ x y th th', acyclic th → rec x y (Some th) = Some (Some th') →
                 unifies th th' x y) →
  acyclic theta → unify_args rec pairs theta = Some (Some theta') →
  theta ⊆ theta' ∧ acyclic theta' ∧
  Forall (λ p, ∃ t, resolves theta' p.1 t ∧ resolves theta' p.2 t) pairs.
Proof.
  intros Hrec. revert theta.
  induction pairs as [|[a b] pairs IH]; intros theta Hac H; simpl in H.
  - by simplify_eq.
  - destruct (rec a b (Some theta)) as [[th1|]|] eqn:Hab; simplify_eq/=.
    apply Hrec in Hab as (Hsub1 & Hac1 & t & Ha & Hb); [|done].
    destruct (IH th1 Hac1 H) as (Hsub & Hac' & Hall).
    split; [by etrans|]. split; [done|]. constructor; [|done]. simpl.
    by eapply resolves_eq_weaken.
Qed.

Lemma unify_compound_sound theta theta' x y x1 y1 xs ys :
  theta ⊆ theta' → acyclic theta' →
  resolves theta x x1 → resolves theta y y1 →
  args x1 = Some xs → args y1 = Some ys →
  same_class x1 y1 = true → name x1 = name y1 → length xs = length ys →
  Forall (λ p, ∃ t, resolves theta' p.1 t ∧ resolves theta' p.2 t) (zip xs ys) →
  unifies theta theta' x y.
Proof.
  intros Hsub Hac Hx Hy Hxs Hys Hcl Hname Hlen Hall.
  split; [done|]. split; [done|].
  destruct (Hac x1) as [tx Htx]. destruct (Hac y1) as [ty Hty].
  exists tx. split; [by eapply resolves_weaken|].
  eapply resolves_weaken; [done..|].
  apply (resolves_compound _ _ xs) in Htx as (kx & -> & Hkx); [|done].
  apply (resolves_compound _ _ ys) in Hty as (ky & -> & Hky); [|done].
  rewrite (with_args_same x1 y1) by eauto.
  apply (resolves_compound _ _ ys); [done|]. exists kx. split; [done|].
  clear -Hlen Hall Hkx. revert ys Hlen Hall.
  induction Hkx as [|a a' xs kx Ha _ IH]; intros [|b ys] Hlen Hall;
    simplify_eq/=; [constructor|].
  inversion Hall as [|? ? (t & Hat & Hbt) Hall']; subst. simpl in *.
  constructor; [|by apply IH]. by rewrite (resolves_fun _ _ _ _ Ha Hat).
Qed.

Lemma unify_var_bind_sound n v x theta :
  acyclic theta → theta !! v = None →
  occurs_check n v x theta = Some false →
  unifies theta (<[v := x]> theta) (Var v) x.
Proof.
  intros Hac Hv Hoc. apply occurs_check_sound in Hoc as (x1 & Hx & Hiff).
  assert (v ∉ vars x1) as Hnot by (intros Hin; apply Hiff in Hin; done).
  destruct (acyclic_insert theta v x x1) as (? & ? & ?); [done..|].
  split; [by apply insert_subseteq|]. split; [done|]. eauto.
Qed.

Lemma unify_sound_mutual n :
  (∀ x y theta theta', acyclic theta →
     unify n x y (Some theta) = Some (Some theta') → unifies theta theta' x y) ∧
  (∀ v x theta theta', acyclic theta →
     unify_var n v x theta = Some (Some theta') → unifies theta theta' (Var v) x).
Proof.
  induction n as [|n [IHu IHv]]; [split; intros; discriminate|]. split.
  - intros x y theta theta' Hac H. rewrite unify_S in H.
    destruct (decide (x = y)) as [->|Hne].
    { simplify_eq. split; [done|]. split; [done|].
      destruct (Hac y) as [t Ht]. eauto. }
    destruct (substitute n x theta) as [x1|] eqn:Hx; simplify_eq/=.
    destruct (substitute n y theta) as [y1|] eqn:Hy; simplify_eq/=.
    assert (resolves theta x x1) as Hrx by by exists n.
    assert (resolves theta y y1) as Hry by by exists n.
    assert (∀ v, unifies theta theta' (Var v) y1 → x1 = Var v →
                 unifies theta theta' x y) as Hl.
    { intros v (Hsub & Hac' & t & Hv & Ht) ->. split; [done|]. split; [done|].
      exists t. split; by eapply resolves_weaken. }
    assert (∀ w, unifies theta theta' (Var w) x1 → y1 = Var w →
                 unifies theta theta' x y) as Hr.
    { intros w (Hsub & Hac' & t & Hw & Ht) ->. split; [done|]. split; [done|].
      exists t. split; by eapply resolves_weaken. }
    destruct x1 as [v|c|f xs|p xs]; [solve [eapply Hl; eauto]|..];
      (destruct y1 as [w|d|g ys|q ys]; [solve [eapply Hr; eauto]|..]);
      simplify_eq/=.
    all: match type of H with
         | (if ?b then _ else _) = _ => destruct b eqn:Hb; simplify_eq/=
         end.
    all: apply andb_true_iff in Hb as [Hb Hlen].
    all: apply bool_decide_eq_true in Hlen.
    all: try apply andb_true_iff in Hb as [Hcl Hname].
    all: try apply bool_decide_eq_true in Hb.
    all: try apply bool_decide_eq_true in Hname.
    all: apply unify_args_sound in H as (Hsub & Hac' & Hall); [|done..].
    all: eapply unify_compound_sound; eauto; done.
  - intros v x theta theta' Hac H. rewrite unify_var_S in H.
    destruct (theta !! v) as [t|] eqn:Hv.
    { apply IHu in H as (Hsub & Hac' & t' & Ht & Hx); [|done].
      split; [done|]. split; [done|]. exists t'. split; [|done].
      apply (resolves_Var_bound _ _ t); [by eapply lookup_weaken|done]. }
    destruct (match x with Var w => theta !! w | _ => None end) as [t|] eqn:Hw.
    { destruct x as [w| | |]; simplify_eq/=.
      apply IHu in H as (Hsub & Hac' & t' & Ht & Hx); [|done].
      split; [done|]. split; [done|]. exists t'. split; [done|].
      apply (resolves_Var_bound _ _ t); [by eapply lookup_weaken|done]. }
    destruct (occurs_check n v x theta) as [[|]|] eqn:Hoc; simplify_eq/=.
    by eapply unify_var_bind_sound.
Qed.

Lemma unify_sound n x y theta theta' :
  acyclic theta → unify n x y (Some theta) = Some (Some theta') →
  unifies theta theta' x y.
Proof. apply unify_sound_mutual. Qed.

Lemma produced_acyclic theta : produced theta → acyclic theta.
Proof.
  induction 1 as [|fuel x y theta theta' _ IH H]; [apply acyclic_empty|].
  by destruct (unify_sound _ _ _ _ _ IH H) as (_ & ? & _).
Qed.

Example unify_f_X_b_f_a_Y :
  unify 5 (Function "f" [Var "X"; Constant "b"])
    (Function "f" [Constant "a"; Var "Y"]) (Some ∅)
  = Some (Some (<["Y" := Constant "b"]> (<["X" := Constant "a"]> ∅))).
Proof. vm_compute. reflexivity. Qed.

Example unify_q_X_X_q_c_c :
  unify 5 (Predicate "q" [Var "X"; Var "X"])
    (Predicate "q" [Constant "c"; Constant "c"]) (Some ∅) = Some None.
Proof. vm_compute. reflexivity. Qed.

Lemma resolves_both theta x y t :
  resolves theta x t → resolves theta y t →
  ∃ n, ∀ m, n ≤ m → substitute m x theta = Some t ∧ substitute m y theta = Some t.
Proof.
  intros [n Hn] [k Hk]. exists (n `max` k). intros m Hm.
  split; [apply (substitute_mono n) | apply (substitute_mono k)]; done || lia.
Qed.

(** C1. Unification soundness: when [unify(x, y, {})] returns a substitution,
    [substitute] returns on [x] and on [y] under it, with the same term. *)
Theorem unify_soundness fuel x y theta :
  unify fuel x y (Some ∅) = Some (Some theta) →
  ∃ t n, ∀ m, n ≤ m →
    substitute m x theta = Some t ∧ substitute m y theta = Some t.
Proof.
  intros H. apply unify_sound in H as (_ & _ & t & Hx & Hy);
    [|apply acyclic_empty].
  exists t. by apply resolves_both.
Qed.

Lemma unify_soundness_witness :
  let x := Function "f" [Var "X"; Constant "b"] in
  let y := Function "f" [Constant "a"; Var "Y"] in
  let theta : Subst := <["Y" := Constant "b"]> (<["X" := Constant "a"]> ∅) in
  unify 5 x y (Some ∅) = Some (Some theta) ∧
  ∃ t n, ∀ m, n ≤ m →
    substitute m x theta = Some t ∧ substitute m y theta = Some t.
Proof.
  intros x y theta. split; [vm_compute; reflexivity|].
  apply (unify_soundness 5 x y theta). vm_compute. reflexivity.
Defined.

(** C7. Idempotence of [substitute]: under a substitution produced by
    unification, [substitute] returns on every term, and on its result it
    returns that result again. *)
Theorem substitute_idempotent theta t :
  produced theta →
  ∃ t' n, ∀ m, n ≤ m →
    substitute m t theta = Some t' ∧ substitute m t' theta = Some t'.
Proof.
  intros Hp. destruct (produced_acyclic theta Hp t) as [t' Ht'].
  exists t'. apply resolves_both; [done|]. by eapply resolves_idem.
Qed.

Lemma substitute_idempotent_witness :
  let theta : Subst := <["Y" := Constant "b"]> (<["X" := Var "Y"]> ∅) in
  let t := Function "g" [Var "X"; Var "Z"] in
  produced theta ∧
  ∃ t' n, ∀ m, n ≤ m →
    substitute m t theta = Some t' ∧ substitute m t' theta = Some t'.
Proof.
  intros theta t.
  assert (Hp : produced theta).
  { apply (produced_unify 5 (Function "f" [Var "X"; Var "Y"])
             (Function "f" [Var "Y"; Constant "b"]) ∅); [constructor|].
    vm_compute. reflexivity. }
  split; [exact Hp|]. exact (substitute_idempotent theta t Hp).
Defined.

Lemma proper_subterm_vars v t :
  proper_subterm (Var v) t → v ∈ vars t ∧ Var v ≠ t.
Proof.
  intros H. split; [|intros <-; by inversion H].
  induction H as [t l Hl Hin|t l a Hl Hin _ IH];
    apply (elem_of_vars_compound t l); [done| |done|]; eauto.
  exists (Var v). split; [done|]. simpl. apply list_elem_of_here.
Qed.

(** C4. Occurs-check safety: unifying a variable with a term that contains it
    below the root returns [None]. *)
Theorem occurs_check_safety v t :
  proper_subterm (Var v) t →
  ∃ n, ∀ m, n ≤ m → unify m (Var v) t (Some ∅) = Some None.
Proof.
  intros H. apply proper_subterm_vars in H as [Hin Hne].
  exists (height t + 4). intros m Hm.
  destruct m as [|[|m]]; [lia..|]. rewrite unify_S.
  destruct (decide (Var v = t)); [done|].
  assert (∀ x k, height x < k → substitute k x ∅ = Some x) as Hid.
  { intros x k Hk. apply substitute_resolved_id; [|done].
    intros w _. apply lookup_empty. }
  rewrite (Hid (Var v)), (Hid t) by (simpl; lia).
  change (unify_var (S m) v t ∅ = Some None).
  rewrite unify_var_S, lookup_empty.
  assert ((match t with Var w => (∅ : Subst) !! w | _ => None end) = None) as ->.
  { destruct t; [apply lookup_empty|done..]. }
  destruct (occurs_check_total ∅ v t t (S (height t)) m) as [b Hb];
    [apply Hid; lia|lia..|].
  rewrite Hb. simpl.
  apply occurs_check_sound in Hb as (t1 & Ht1 & Hiff).
  rewrite <- (resolves_fun _ _ _ _ (resolves_empty t) Ht1) in Hiff.
  apply Hiff in Hin. by subst.
Qed.

Lemma occurs_check_safety_witness :
  let t := Function "f" [Constant "a"; Function "g" [Var "X"]] in
  proper_subterm (Var "X") t ∧
  ∃ n, ∀ m, n ≤ m → unify m (Var "X") t (Some ∅) = Some None.
Proof.
  intros t.
  assert (H : proper_subterm (Var "X") t).
  { apply (proper_subterm_below _ t [Constant "a"; Function "g" [Var "X"]]
             (Function "g" [Var "X"])); [reflexivity|set_solver|].
    apply (proper_subterm_arg _ _ [Var "X"]); [reflexivity|set_solver]. }
  split; [exact H|]. exact (occurs_check_safety "X" t H).
Defined.

(** ** More fuel does not change a result *)

Lemma occurs_check_args_mono (rec rec' : Expr → option bool) l b :
  (∀ a c, rec a = Some c → rec' a = Some c) →
  occurs_check_args rec l = Some b → occurs_check_args rec' l = Some b.
Proof.
  intros Hrec. induction l as [|a l IH]; simpl; [done|].
  destruct (rec a) as [c|] eqn:Ha; [|done]. rewrite (Hrec a c Ha). simpl.
  destruct c; auto.
Qed.

Lemma occurs_check_mono (n m : nat) v x theta b :
  n ≤ m → occurs_check n v x theta = Some b → occurs_check m v x theta = Some b.
Proof.
  revert m x b. induction n as [|n IH]; intros m x b Hle H; [discriminate|].
  destruct m as [|m]; [lia|]. rewrite occurs_check_S in H |- *.
  destruct (substitute n x theta) as [x1|] eqn:Hx; [|done].
  rewrite (substitute_mono n m x theta x1) by (done || lia). simpl in *.
  destruct (decide _); [done|]. destruct (args x1); [|done].
  eapply occurs_check_args_mono; [|exact H]. intros a c. apply IH. lia.
Qed.

Lemma unify_args_mono
    (rec rec' : Expr → Expr → option Subst → option (option Subst))
    pairs theta r :
  (∀ x y th r, rec x y th = Some r → rec' x y th = Some r) →
  unify_args rec pairs theta = Some r → unify_args rec' pairs theta = Some r.
Proof.
  intros Hrec. revert theta. induction pairs as [|[a b] pairs IH];
    intros theta; simpl; [done|].
  destruct (rec a b (Some theta)) as [r1|] eqn:Hab; [|done].
  rewrite (Hrec _ _ _ _ Hab). simpl. destruct r1; auto.
Qed.

Lemma unify_mono_mutual (n : nat) :
  (∀ m x y theta r, n ≤ m → unify n x y theta = Some r →
                    unify m x y theta = Some r) ∧
  (∀ m v x theta r, n ≤ m → unify_var n v x theta = Some r →
                    unify_var m v x theta = Some r).
Proof.
  induction n as [|n [IHu IHv]]; [split; intros; discriminate|]. split.
  - intros m x y theta r Hle H. destruct m as [|m]; [lia|].
    rewrite unify_S in H |- *. destruct theta as [th|]; [|done].
    destruct (decide (x = y)); [done|].
    destruct (substitute n x th) as [x1|] eqn:Hx; [|done].
    destruct (substitute n y th) as [y1|] eqn:Hy; [|done].
    rewrite (substitute_mono n m x th x1), (substitute_mono n m y th y1)
      by (done || lia). simpl in *.
    destruct x1, y1; simpl in *; try done; try (apply IHv; [lia|done]).
    all: destruct (_ && _); [|done].
    all: eapply unify_args_mono; [|exact H].
    all: intros; apply IHu; [lia|done].
  - intros m v x theta r Hle H. destruct m as [|m]; [lia|].
    rewrite unify_var_S in H |- *.
    destruct (theta !! v); [apply IHu; [lia|done]|].
    destruct (match x with Var w => theta !! w | _ => None end);
      [apply IHu; [lia|done]|].
    destruct (occurs_check n v x theta) as [b|] eqn:Hoc; [|done].
    by rewrite (occurs_check_mono n m v x theta b) by (done || lia).
Qed.

Lemma unify_mono (n m : nat) x y theta r :
  n ≤ m → unify n x y theta = Some r → unify m x y theta = Some r.
Proof. apply unify_mono_mutual. Qed.

(** ** Unification on the heap *)

Lemma deref_prefix (h h' : heap) r :
  h `prefix_of` h' → r < length h → deref h' r = deref h r.
Proof.
  intros [k ->] Hr. unfold deref. by rewrite lookup_app_l.
Qed.

Lemma deref_app_new (h : heap) theta : deref (h ++ [theta]) (length h) = theta.
Proof. unfold deref. by rewrite lookup_app_r, Nat.sub_diag by lia. Qed.

Lemma unify_args_ref_refines
    (rec : Expr → Expr → option Subst → option (option Subst))
    (rec_ref : Expr → Expr → option nat → heap → option (option nat * heap))
    pairs r h :
  (∀ x y r h, r < length h →
     refines h (rec x y (Some (deref h r))) (rec_ref x y (Some r) h)) →
  r < length h →
  refines h (unify_args rec pairs (deref h r)) (unify_args_ref rec_ref pairs r h).
Proof.
  intros Hrec. revert r h. induction pairs as [|[a b] pairs IH]; intros r h Hr.
  - simpl. split; [done|]. split; [done|]. by intros ? [= <-].
  - simpl. specialize (Hrec a b r h Hr). unfold refines in Hrec.
    destruct (rec_ref a b (Some r) h) as [[[r1|] h1]|]; simpl.
    + destruct Hrec as (Hpre & -> & Hlen). simpl.
      specialize (IH r1 h1 (Hlen r1 eq_refl)). unfold refines in IH |- *.
      destruct (unify_args_ref rec_ref pairs r1 h1) as [[res h2]|]; [|done].
      destruct IH as (Hpre2 & -> & Hlen2). split; [by etrans|done].
    + destruct Hrec as (Hpre & -> & Hlen). simpl. split; [done|]. split; [done|].
      by intros.
    + by rewrite Hrec.
Qed.

Lemma unify_ref_refines_mutual (n : nat) :
  (∀ x y r h, r < length h →
     refines h (unify n x y (Some (deref h r))) (unify_ref n x y (Some r) h)) ∧
  (∀ v x r h, r < length h →
     refines h (unify_var n v x (deref h r)) (unify_var_ref n v x r h)).
Proof.
  induction n as [|n [IHu IHv]]; [split; intros; done|]. split.
  - intros x y r h Hr. simpl.
    destruct (Expr_eqb x y).
    { split; [done|]. split; [done|]. by intros ? [= <-]. }
    destruct (substitute n x (deref h r)) as [x1|]; [simpl|done].
    destruct (substitute n y (deref h r)) as [y1|]; [simpl|done].
    destruct x1, y1; simpl; try (by apply IHv);
      try (split; [done|]; split; [done|]; by intros).
    all: destruct (_ && _); [by apply unify_args_ref_refines|].
    all: split; [done|]; split; [done|]; by intros.
  - intros v x r h Hr. simpl.
    destruct (deref h r !! v); [by apply IHu|].
    destruct (match x with Var w => deref h r !! w | _ => None end);
      [by apply IHu|].
    destruct (occurs_check n v x (deref h r)) as [[|]|]; simpl; [|  |done].
    { split; [done|]. split; [done|]. by intros. }
    assert (<[length h := <[v := x]> (deref (h ++ [deref h r]) (length h))]>
              (h ++ [deref h r]) = h ++ [<[v := x]> (deref h r)]) as ->.
    { rewrite deref_app_new, insert_app_r_alt, Nat.sub_diag by lia. done. }
    split; [by apply prefix_app_r|]. split.
    + simpl. by rewrite deref_app_new.
    + intros ? [= <-]. rewrite length_app. simpl. lia.
Qed.

Lemma unify_extends_mutual (n : nat) :
  (∀ x y theta theta', unify n x y (Some theta) = Some (Some theta') →
                       theta ⊆ theta') ∧
  (∀ v x theta theta', unify_var n v x theta = Some (Some theta') →
                       theta ⊆ theta').
Proof.
  induction n as [|n [IHu IHv]]; [split; intros; discriminate|]. split.
  - intros x y theta theta' H. rewrite unify_S in H.
    destruct (decide (x = y)); [by simplify_eq|].
    destruct (substitute n x theta) as [x1|]; [|done].
    destruct (substitute n y theta) as [y1|]; [|done]. simpl in H.
    assert (∀ pairs th, unify_args (unify n) pairs th = Some (Some theta') →
                        th ⊆ theta') as Hargs.
    { induction pairs as [|[a b] pairs IH]; intros th Hth; simpl in Hth;
        [by simplify_eq|].
      destruct (unify n a b (Some th)) as [[th1|]|] eqn:Hab; simplify_eq/=.
      etrans; [by eapply IHu|by apply IH]. }
    destruct x1, y1; simpl in H; try done; try (by eapply IHv).
    all: destruct (_ && _); [by eapply Hargs|done].
  - intros v x theta theta' H. rewrite unify_var_S in H.
    destruct (theta !! v) eqn:Hv; [by eapply IHu|].
    destruct (match x with Var w => theta !! w | _ => None end);
      [by eapply IHu|].
    destruct (occurs_check n v x theta) as [[|]|]; simplify_eq/=.
    by apply insert_subseteq.
Qed.

(** C10. [unify] does not change the substitution it is given: whether it
    fails or succeeds, every dict that existed before the call, the caller's
    among them, holds the same bindings after it; and a substitution returned
    contains every binding of the one given. *)
Theorem unify_frame fuel x y (theta : nat) (h : heap) res h' :
  theta < length h →
  unify_ref fuel x y (Some theta) h = Some (res, h') →
  (∀ r, r < length h → h' !! r = h !! r) ∧
  (∀ theta', res = Some theta' → deref h theta ⊆ deref h' theta').
Proof.
  intros Hr H.
  pose proof (proj1 (unify_ref_refines_mutual fuel) x y theta h Hr) as Href.
  rewrite H in Href. destruct Href as ([k ->] & Hpure & _). split.
  - intros r Hlt. by rewrite lookup_app_l.
  - intros theta' ->. simpl in Hpure.
    by apply (proj1 (unify_extends_mutual fuel)) in Hpure.
Qed.

Lemma unify_frame_witness :
  let x := Function "f" [Var "X"; Constant "b"] in
  let y := Function "f" [Constant "a"; Var "Y"] in
  let h1 : heap := [∅; <["X" := Constant "a"]> ∅;
                    <["Y" := Constant "b"]> (<["X" := Constant "a"]> ∅)] in
  (0 < length [(∅ : Subst)] ∧
   unify_ref 5 x y (Some 0) [∅] = Some (Some 2, h1)) ∧
  (∀ r, r < length [(∅ : Subst)] → h1 !! r = [(∅ : Subst)] !! r) ∧
  (∀ theta', Some 2 = Some theta' → deref [∅] 0 ⊆ deref h1 theta').
Proof.
  intros x y h1. split; [split; [simpl; lia | vm_compute; reflexivity]|].
  apply (unify_frame 5 x y 0 [∅] (Some 2) h1); [simpl; lia|].
  vm_compute. reflexivity.
Defined.

(** ** Knowledge base *)

Lemma index_consistent_init : index_consistent KnowledgeBase_init.
Proof. intros nm arity. unfold bucket. simpl. by rewrite lookup_empty. Qed.

Lemma add_clause_clauses kb c kb' st :
  add_clause kb c = (kb', st) → clauses kb' = clauses kb ++ [c].
Proof. unfold add_clause. destruct (args (head c)); by intros [= <- <-]. Qed.

Lemma add_clause_consistent kb c kb' :
  index_consistent kb → add_clause kb c = (kb', Finished) →
  index_consistent kb'.
Proof.
  intros Hkb H nm arity. rewrite (add_clause_clauses _ _ _ _ H), filter_app.
  rewrite <- Hkb. unfold add_clause in H.
  destruct (args (head c)) as [l|] eqn:Hl; [|done]. injection H as <-.
  assert (signature (head c) = Some (name (head c), length l)) as Hsig.
  { unfold signature. by rewrite Hl. }
  unfold bucket. simpl.
  destruct (decide (name (head c) = nm)) as [<-|Hnm].
  - rewrite lookup_insert_eq. simpl.
    destruct (decide (length l = arity)) as [<-|Har].
    + rewrite lookup_insert_eq. simpl. by rewrite filter_cons_True.
    + rewrite lookup_insert_ne by done.
      rewrite filter_cons_False by congruence. by rewrite app_nil_r.
  - rewrite lookup_insert_ne by done.
    rewrite filter_cons_False by congruence. by rewrite app_nil_r.
Qed.

Lemma add_clauses_consistent cs kb kb' :
  index_consistent kb → add_clauses kb cs = (kb', Finished) →
  clauses kb' = clauses kb ++ cs ∧ index_consistent kb'.
Proof.
  revert kb. induction cs as [|c cs IH]; intros kb Hkb H; simpl in H.
  - injection H as <-. by rewrite app_nil_r.
  - destruct (add_clause kb c) as [kb1 st] eqn:Hc.
    destruct st; try discriminate.
    destruct (IH kb1) as [Hcl Hidx];
      [by eapply add_clause_consistent|done|].
    split; [|done].
    by rewrite Hcl, (add_clause_clauses _ _ _ _ Hc), <- app_assoc.
Qed.

Lemma add_clauses_init_consistent cs kb :
  add_clauses KnowledgeBase_init cs = (kb, Finished) →
  clauses kb = cs ∧ index_consistent kb.
Proof.
  intros H. by apply add_clauses_consistent in H; [|apply index_consistent_init].
Qed.

(** Every call returns when the heads are compounds, as the heads of clauses
    are. *)
Lemma add_clauses_returns cs kb :
  Forall (λ c, is_compound (head c) = true) cs →
  (add_clauses kb cs).2 = Finished.
Proof.
  intros H. revert kb. induction H as [|c cs Hc _ IH]; intros kb; [done|].
  simpl. unfold add_clause.
  destruct (head c) as [?|?|? l|? l]; try discriminate; simpl; apply IH.
Qed.

(** C9. After any sequence of [add_clause] calls on a new knowledge base, the
    clause sequence is the sequence of the clauses added, and the bucket of
    each name and arity is the subsequence of the clauses whose head has
    that name and that number of arguments: each clause is in the bucket of
    its key and in no other, in the order of insertion. *)
Theorem index_consistent_after_add_clauses cs kb :
  add_clauses KnowledgeBase_init cs = (kb, Finished) →
  clauses kb = cs ∧
  ∀ nm arity,
    bucket kb nm arity = filter (λ c, signature (head c) = Some (nm, arity)) cs.
Proof.
  intros H. apply add_clauses_init_consistent in H as [Hcl Hidx].
  split; [done|]. intros nm arity. by rewrite Hidx, Hcl.
Qed.

Lemma family_kb_built :
  add_clauses KnowledgeBase_init family_clauses = (family_kb, Finished).
Proof. vm_compute. reflexivity. Qed.

Lemma index_consistent_after_add_clauses_witness :
  add_clauses KnowledgeBase_init family_clauses = (family_kb, Finished) ∧
  clauses family_kb = family_clauses ∧
  ∀ nm arity,
    bucket family_kb nm arity
    = filter (λ c, signature (head c) = Some (nm, arity)) family_clauses.
Proof.
  split; [vm_compute; reflexivity|].
  apply (index_consistent_after_add_clauses family_clauses family_kb).
  vm_compute. reflexivity.
Defined.

(** ** Goals without candidate clauses *)

Lemma substitute_empty x (n : nat) : height x < n → substitute n x ∅ = Some x.
Proof.
  intros Hn. apply substitute_resolved_id; [|done]. intros w _. apply lookup_empty.
Qed.

(** C5. A goal whose name and arity are the key of no clause added to the
    knowledge base has no candidate clauses, and [ask] on it, alone or as a
    conjunction of one goal, comes to its end without yielding anything and
    without raising. *)
Theorem unknown_goal_has_no_proof cs kb goal l :
  add_clauses KnowledgeBase_init cs = (kb, Finished) →
  args goal = Some l →
  Forall (λ c, signature (head c) ≠ Some (name goal, length l)) cs →
  fetch_clauses_for_goal kb goal = Some [] ∧
  ∃ n, ∀ m _counter, n ≤ m →
    ask m kb (SingleGoal goal) _counter = mkRun [] Finished _counter ∧
    ask m kb (Conjunction [goal]) _counter = mkRun [] Finished _counter.
Proof.
  intros Hkb Hl Hcs.
  apply add_clauses_init_consistent in Hkb as [Hcl Hidx].
  assert (fetch_clauses_for_goal kb goal = Some []) as Hfetch.
  { unfold fetch_clauses_for_goal. rewrite Hl. simpl. f_equal.
    fold (bucket kb (name goal) (length l)). rewrite Hidx, Hcl. clear Hidx Hcl.
    induction Hcs as [|c cs Hc _ IH]; [done|].
    rewrite filter_cons_False; [exact IH | exact Hc]. }
  split; [done|]. exists (height goal + 3). intros m c Hm.
  assert (∀ k consumer, height goal < k →
    fol_bc_or (S k) kb goal ∅ [] consumer c = mkRun [] Finished c) as Hor.
  { intros k consumer Hk. simpl. rewrite substitute_empty by done.
    by rewrite Hfetch. }
  destruct m as [|[|m]]; [lia..|]. split.
  - apply Hor. lia.
  - change (fol_bc_or (S m) kb goal ∅ []
              (λ theta_prime _counter,
                 fol_bc_and (S m) kb [] (Some theta_prime) [] collect _counter)
              c = mkRun [] Finished c).
    apply Hor. lia.
Qed.

Lemma unknown_goal_has_no_proof_witness :
  let goal := Predicate "father" [Constant "abe"] in
  (add_clauses KnowledgeBase_init family_clauses = (family_kb, Finished) ∧
   args goal = Some [Constant "abe"] ∧
   Forall (λ c, signature (head c) ≠ Some (name goal, 1)) family_clauses) ∧
  fetch_clauses_for_goal family_kb goal = Some [] ∧
  ∃ n, ∀ m _counter, n ≤ m →
    ask m family_kb (SingleGoal goal) _counter = mkRun [] Finished _counter ∧
    ask m family_kb (Conjunction [goal]) _counter = mkRun [] Finished _counter.
Proof.
  intros goal.
  assert (H1 : add_clauses KnowledgeBase_init family_clauses
               = (family_kb, Finished)) by (vm_compute; reflexivity).
  assert (H2 : args goal = Some [Constant "abe"]) by reflexivity.
  assert (H3 : Forall (λ c, signature (head c) ≠ Some (name goal, 1))
                 family_clauses).
  { repeat constructor; vm_compute; discriminate. }
  split; [by repeat split|].
  exact (unknown_goal_has_no_proof family_clauses family_kb goal
           [Constant "abe"] H1 H2 H3).
Defined.

(** ** Renaming *)

(** What the renaming does guarantee: one variable gets different names in
    copies made at different values of the counter. *)
Lemma fresh_counter_inj (n m : nat) v : fresh n v = fresh m v → n = m.
Proof.
  unfold fresh. intros [= H].
  induction v as [|a v IH]; simpl in H; [by apply (inj pretty)|].
  injection H as H. auto.
Qed.

(** C3, on the code: the first and the eleventh copy of a clause over the
    variables [x] and [x1] both contain the variable [_x11], as the renaming
    of [x1] in the one and of [x] in the other. *)
Theorem standardize_apart_shares_name :
  let copy1 := (standardize_apart clause_x_x1 0).1 in
  let copy11 := (standardize_apart clause_x_x1 10).1 in
  copy1 = mkClause (Predicate "p" [Var "_x1"; Var "_x11"]) [] ∧
  copy11 = mkClause (Predicate "p" [Var "_x11"; Var "_x111"]) [] ∧
  "_x11" ∈ clause_vars copy1 ∧ "_x11" ∈ clause_vars copy11.
Proof.
  split; [vm_compute; reflexivity|]. split; [vm_compute; reflexivity|].
  split; vm_compute; set_solver.
Qed.

Lemma rename_spec counter x mapping :
  fresh_mapping counter mapping →
  (rename counter x mapping).1 = inst (fresh counter) x ∧
  fresh_mapping counter (rename counter x mapping).2.
Proof.
  revert mapping.
  induction x as [v|c|f l IH|p l IH] using Expr_nested_ind; intros mapping Hm.
  - simpl. destruct (mapping !! v) as [e|] eqn:Hv; simpl.
    + split; [by apply Hm|done].
    + split; [done|]. intros w e. rewrite lookup_insert.
      case_decide; [by intros [= <-]; subst|apply Hm].
  - done.
  - simpl.
    match goal with |- context [?g l mapping] => set (go := g) end.
    assert (∀ m, fresh_mapping counter m →
              (go l m).1 = inst (fresh counter) <$> l ∧
              fresh_mapping counter (go l m).2) as Hgo.
    { clear Hm mapping. induction IH as [|a l Ha _ IHl]; intros m Hm; [done|].
      simpl. destruct (Ha m Hm) as [H1 H2].
      destruct (rename counter a m) as [a' m1]. simpl in *.
      destruct (IHl m1 H2) as [H3 H4].
      destruct (go l m1) as [l' m2]. simpl in *. by subst. }
    destruct (Hgo mapping Hm) as [H1 H2].
    destruct (go l mapping) as [l' m']. simpl in *. by subst.
  - simpl.
    match goal with |- context [?g l mapping] => set (go := g) end.
    assert (∀ m, fresh_mapping counter m →
              (go l m).1 = inst (fresh counter) <$> l ∧
              fresh_mapping counter (go l m).2) as Hgo.
    { clear Hm mapping. induction IH as [|a l Ha _ IHl]; intros m Hm; [done|].
      simpl. destruct (Ha m Hm) as [H1 H2].
      destruct (rename counter a m) as [a' m1]. simpl in *.
      destruct (IHl m1 H2) as [H3 H4].
      destruct (go l m1) as [l' m2]. simpl in *. by subst. }
    destruct (Hgo mapping Hm) as [H1 H2].
    destruct (go l mapping) as [l' m']. simpl in *. by subst.
Qed.

Lemma rename_body_spec counter l mapping :
  fresh_mapping counter mapping →
  (rename_body counter l mapping).1 = inst (fresh counter) <$> l.
Proof.
  revert mapping. induction l as [|b l IH]; intros mapping Hm; [done|].
  simpl. destruct (rename_spec counter b mapping Hm) as [H1 H2].
  destruct (rename counter b mapping) as [b' m1]. simpl in *.
  specialize (IH m1 H2). destruct (rename_body counter l m1) as [l' m2].
  simpl in *. by subst.
Qed.

(** A copy of a clause is the clause with each variable [v] replaced by the
    fresh variable of [v] for the incremented counter. *)
Lemma standardize_apart_spec clause _counter :
  standardize_apart clause _counter =
  (mkClause (inst (fresh (_counter + 1)) (head clause))
     (inst (fresh (_counter + 1)) <$> body clause),
   _counter + 1).
Proof.
  unfold standardize_apart.
  assert (fresh_mapping (_counter + 1) ∅) as H0 by (intros ??; by rewrite lookup_empty).
  destruct (rename_spec (_counter + 1) (head clause) ∅ H0) as [H1 H2].
  destruct (rename (_counter + 1) (head clause) ∅) as [h m]. simpl in *.
  pose proof (rename_body_spec (_counter + 1) (body clause) m H2) as H3.
  destruct (rename_body (_counter + 1) (body clause) m) as [b m'].
  simpl in *. by subst.
Qed.

(** ** Soundness of backward chaining *)

Lemma inst_inst tau sigma x :
  inst tau (inst sigma x) = inst (λ v, inst tau (sigma v)) x.
Proof.
  induction x as [v|c|f l IH|p l IH] using Expr_nested_ind; simpl; [done..| |].
  - f_equal. rewrite <- list_fmap_compose. apply Forall_fmap_ext_1.
    eapply Forall_impl; [exact IH|]. done.
  - f_equal. rewrite <- list_fmap_compose. apply Forall_fmap_ext_1.
    eapply Forall_impl; [exact IH|]. done.
Qed.

Lemma derivable_inst cs tau t : derivable cs t → derivable cs (inst tau t).
Proof.
  induction 1 as [c sigma Hc _ IH]. rewrite inst_inst.
  apply derivable_clause; [done|]. intros b Hb. rewrite <- inst_inst. by apply IH.
Qed.

Lemma substitute_inst (n m : nat) theta x t :
  m ≤ n → substitute m x theta = Some t → t = inst (resolution n theta) x.
Proof.
  revert x t. induction m as [|m IH]; intros x t Hle H; [discriminate|].
  destruct x as [v|c|f l|p l].
  - simpl. unfold resolution.
    by rewrite (substitute_mono (S m) n (Var v) theta t).
  - simpl in H. by simplify_eq.
  - simpl in H. destruct (mapM _ l) as [k|] eqn:E; simplify_eq/=. f_equal.
    apply mapM_Some in E. induction E as [|a a' l k Ha _ IHl]; [done|].
    simpl. f_equal; [|done]. apply IH; [lia|done].
  - simpl in H. destruct (mapM _ l) as [k|] eqn:E; simplify_eq/=. f_equal.
    apply mapM_Some in E. induction E as [|a a' l k Ha _ IHl]; [done|].
    simpl. f_equal; [|done]. apply IH; [lia|done].
Qed.

Lemma resolves_inst theta x t :
  resolves theta x t → ∃ tau, t = inst tau x.
Proof. intros [n Hn]. eauto using substitute_inst. Qed.

(** A goal proved under a substitution stays proved under every acyclic
    extension of it. *)
Lemma proves_weaken cs (theta theta' : Subst) goal :
  theta ⊆ theta' → acyclic theta' → proves cs theta goal → proves cs theta' goal.
Proof.
  intros Hsub Hac (t & Ht & Hd). destruct (Hac t) as [t' Ht'].
  exists t'. split; [by eapply resolves_weaken|].
  apply resolves_inst in Ht' as [tau ->]. by apply derivable_inst.
Qed.

Lemma acyclic_list theta (l : list Expr) :
  acyclic theta → ∃ k, Forall2 (resolves theta) l k.
Proof.
  intros Hac. induction l as [|a l [k Hk]]; [by exists []|].
  destruct (Hac a) as [a' Ha']. exists (a' :: k). by constructor.
Qed.

(** A clause of which an instance of each body atom is proved, under the
    substitution that resolves the renamed head, proves the head. *)
Lemma clause_proves cs c (sigma : string → Expr) theta t :
  c ∈ cs → acyclic theta →
  resolves theta (inst sigma (head c)) t →
  (∀ b, b ∈ body c → proves cs theta (inst sigma b)) →
  derivable cs t.
Proof.
  intros Hc Hac Ht Hbody.
  destruct (acyclic_list theta (inst sigma (head c) :: (inst sigma <$> body c)) Hac)
    as [k Hk].
  apply resolves_list in Hk as [n Hn].
  inversion Hn as [|? t1 ? k1 Hh Hb]; subst.
  rewrite (resolves_fun _ _ _ _ Ht (ex_intro _ n Hh)).
  rewrite (substitute_inst n n theta _ _ (le_n _) Hh), inst_inst.
  apply derivable_clause; [done|]. intros b Hin.
  destruct (Hbody b Hin) as (tb & Htb & Hd).
  rewrite <- inst_inst.
  assert (inst sigma b ∈ inst sigma <$> body c) as Hin'
    by (apply list_elem_of_fmap; eauto).
  rewrite Forall2_fmap_l in Hb.
  destruct (proj1 (list_elem_of_lookup _ _) Hin) as [i Hi].
  destruct (Forall2_lookup_l _ _ _ _ _ Hb Hi) as (tb' & _ & Hb').
  simpl in Hb'.
  rewrite <- (substitute_inst n n theta _ _ (le_n _) Hb').
  by rewrite <- (resolves_fun _ _ _ _ Htb (ex_intro _ n Hb')).
Qed.

Lemma then_run_yields P r k :
  yields_only P r → (∀ c, yields_only P (k c)) → yields_only P (then_run r k).
Proof.
  intros Hr Hk. unfold then_run. destruct (ending r); [|done..].
  unfold yields_only. simpl. apply Forall_app. split; [done|apply Hk].
Qed.

Lemma fetch_clauses_for_goal_sound kb goal l :
  index_consistent kb → fetch_clauses_for_goal kb goal = Some l →
  l ⊆ clauses kb.
Proof.
  intros Hkb H. unfold fetch_clauses_for_goal in H.
  destruct (args goal) as [a|]; simplify_eq/=.
  fold (bucket kb (name goal) (length a)). rewrite Hkb.
  intros c Hc. by apply list_elem_of_filter in Hc as [_ ?].
Qed.

Section soundness.
Variable cs : list Clause.
Variable P : Subst → Prop.

Lemma fol_bc_or_clauses_sound
    (unify_head : Expr → option (option Subst))
    (prove_body : list Expr → Subst → nat → run)
    (consumer : Subst → nat → run) goal current theta candidates _counter :
  acyclic theta → resolves theta goal current → candidates ⊆ cs →
  (∀ h theta', unify_head h = Some (Some theta') →
               unifies theta theta' h current) →
  (∀ goals theta' c', acyclic theta' →
     (∀ theta'' c'', theta' ⊆ theta'' → acyclic theta'' →
        Forall (proves cs theta'') goals → yields_only P (consumer theta'' c'')) →
     yields_only P (prove_body goals theta' c')) →
  (∀ theta' c', theta ⊆ theta' → acyclic theta' → proves cs theta' goal →
     yields_only P (consumer theta' c')) →
  yields_only P
    (fol_bc_or_clauses unify_head prove_body consumer candidates _counter).
Proof.
  intros Hac Hgoal Hcs Hu Hb Hk. revert _counter.
  induction candidates as [|clause candidates IH]; intros c; simpl.
  { constructor. }
  rewrite standardize_apart_spec. simpl.
  assert (candidates ⊆ cs) as Hcs' by set_solver.
  assert (clause ∈ cs) as Hin by set_solver.
  set (ren := fresh (c + 1)).
  destruct (unify_head (inst ren (head clause))) as [[theta'|]|] eqn:Hun;
    [|by apply IH|constructor].
  apply then_run_yields; [|intros; by apply IH].
  apply Hu in Hun as (Hsub & Hac' & t & Hh & Hc).
  destruct (inst ren <$> body clause) as [|b' body'] eqn:Hbody.
  - apply Hk; [done..|]. exists t.
    split; [by apply (resolves_weaken theta theta' goal current t)|].
    apply (clause_proves cs clause ren theta' t); [done..|].
    apply fmap_nil_inv in Hbody. rewrite Hbody. intros b Hb'.
    by apply elem_of_nil in Hb'.
  - apply Hb; [done|]. intros theta'' c'' Hsub' Hac'' Hall.
    apply Hk; [by etrans|done|].
    destruct (Hac'' t) as [t' Ht'].
    assert (resolves theta'' (inst ren (head clause)) t') as Hh'
      by by apply (resolves_weaken theta' theta'' _ t t').
    exists t'. split.
    + apply (resolves_weaken theta theta'' goal current t'); [by etrans|done|].
      by apply (resolves_weaken theta' theta'' current t t').
    + apply (clause_proves cs clause ren theta'' t'); [done..|].
      intros b Hb'. rewrite Forall_forall in Hall. apply Hall.
      rewrite <- Hbody. apply list_elem_of_fmap. eauto.
Qed.

Lemma fol_bc_sound_mutual kb n :
  index_consistent kb → clauses kb = cs →
  (∀ goal theta visited consumer _counter,
     acyclic theta →
     (∀ theta' c', theta ⊆ theta' → acyclic theta' → proves cs theta' goal →
        yields_only P (consumer theta' c')) →
     yields_only P (fol_bc_or n kb goal theta visited consumer _counter)) ∧
  (∀ goals theta visited consumer _counter,
     acyclic theta →
     (∀ theta' c', theta ⊆ theta' → acyclic theta' →
        Forall (proves cs theta') goals → yields_only P (consumer theta' c')) →
     yields_only P
       (fol_bc_and n kb goals (Some theta) visited consumer _counter)).
Proof.
  intros Hkb Hcs. induction n as [|n [IHor IHand]]; [split; intros; constructor|].
  split.
  - intros goal theta visited consumer c Hac Hk. simpl.
    destruct (substitute n goal theta) as [current|] eqn:Hcur; [|constructor].
    case_bool_decide; [constructor|].
    destruct (fetch_clauses_for_goal kb goal) as [candidates|] eqn:Hf;
      [|constructor].
    apply (fol_bc_or_clauses_sound _ _ _ goal current theta); try done.
    + by exists n.
    + rewrite <- Hcs. by eapply fetch_clauses_for_goal_sound.
    + intros h theta' Hun. by eapply unify_sound.
    + intros goals theta' c' Hac' Hk'. by apply IHand.
  - intros goals theta visited consumer c Hac Hk. simpl.
    destruct goals as [|first rest].
    { apply Hk; [done..|constructor]. }
    apply IHor; [done|]. intros theta' c' Hsub Hac' Hfirst.
    apply IHand; [done|]. intros theta'' c'' Hsub' Hac'' Hrest.
    apply Hk; [by etrans|done|]. constructor; [|done].
    by eapply proves_weaken.
Qed.

End soundness.

Lemma ask_sound cs kb fuel query _counter :
  add_clauses KnowledgeBase_init cs = (kb, Finished) →
  yields_only (λ theta, Forall (proves cs theta) (query_goals query))
    (ask fuel kb query _counter).
Proof.
  intros Hkb. apply add_clauses_init_consistent in Hkb as [Hcl Hidx].
  destruct query as [goal|goals]; simpl.
  - apply (fol_bc_sound_mutual cs _ kb fuel Hidx Hcl); [apply acyclic_empty|].
    intros theta' c' _ _ Hp. repeat constructor. done.
  - apply (fol_bc_sound_mutual cs _ kb fuel Hidx Hcl); [apply acyclic_empty|].
    intros theta' c' _ _ Hp. repeat constructor. done.
Qed.

(** C2. Soundness of backward chaining: under every substitution that
    [ask] yields for a conjunction of goals, each goal resolves to an atom
    that follows from the clauses of the knowledge base. *)
Theorem backward_chaining_sound cs kb fuel goals _counter theta goal :
  add_clauses KnowledgeBase_init cs = (kb, Finished) →
  theta ∈ yielded (ask fuel kb (Conjunction goals) _counter) →
  goal ∈ goals →
  ∃ t n, (∀ m, n ≤ m → substitute m goal theta = Some t) ∧ derivable cs t.
Proof.
  intros Hkb Hth Hg.
  pose proof (ask_sound cs kb fuel (Conjunction goals) _counter Hkb) as H.
  unfold yields_only in H. rewrite Forall_forall in H.
  specialize (H theta Hth). simpl in H. rewrite Forall_forall in H.
  destruct (H goal Hg) as (t & [n Hn] & Hd). exists t, n. split; [|done].
  intros m Hm. by eapply substitute_mono.
Qed.

(** ** More fuel does not change a finished run *)

Lemma then_run_finished r k :
  ending (then_run r k) = Finished →
  ending r = Finished ∧ ending (k (counter_after r)) = Finished.
Proof.
  unfold then_run. destruct (ending r) eqn:E; simpl; intros H;
    [done | congruence..].
Qed.

Lemma fol_bc_or_clauses_mono
    (unify_head unify_head' : Expr → option (option Subst))
    (prove_body prove_body' : list Expr → Subst → nat → run)
    (consumer consumer' : Subst → nat → run) candidates _counter :
  (∀ h r, unify_head h = Some r → unify_head' h = Some r) →
  (∀ goals theta c, ending (prove_body goals theta c) = Finished →
                    prove_body' goals theta c = prove_body goals theta c) →
  (∀ theta c, ending (consumer theta c) = Finished →
              consumer' theta c = consumer theta c) →
  ending (fol_bc_or_clauses unify_head prove_body consumer candidates _counter)
  = Finished →
  fol_bc_or_clauses unify_head' prove_body' consumer' candidates _counter
  = fol_bc_or_clauses unify_head prove_body consumer candidates _counter.
Proof.
  intros Hu Hb Hk. revert _counter.
  induction candidates as [|clause candidates IH]; intros c; simpl; [done|].
  destruct (standardize_apart clause c) as [clause_copy c1].
  destruct (unify_head (head clause_copy)) as [r|] eqn:Hun; [|done].
  rewrite (Hu _ _ Hun). destruct r as [theta'|]; [|apply IH].
  intros Hfin. apply then_run_finished in Hfin as [H1 H2].
  assert ((match body clause_copy with
           | [] => consumer' theta' c1
           | _ => prove_body' (body clause_copy) theta' c1
           end) =
          (match body clause_copy with
           | [] => consumer theta' c1
           | _ => prove_body (body clause_copy) theta' c1
           end)) as ->.
  { destruct (body clause_copy); [by apply Hk|by apply Hb]. }
  unfold then_run. rewrite H1. by rewrite IH.
Qed.

Lemma fol_bc_mono_mutual kb (n : nat) :
  (∀ m goal theta visited consumer consumer' _counter,
     n ≤ m →
     (∀ theta c, ending (consumer theta c) = Finished →
                 consumer' theta c = consumer theta c) →
     ending (fol_bc_or n kb goal theta visited consumer _counter) = Finished →
     fol_bc_or m kb goal theta visited consumer' _counter
     = fol_bc_or n kb goal theta visited consumer _counter) ∧
  (∀ m goals theta visited consumer consumer' _counter,
     n ≤ m →
     (∀ theta c, ending (consumer theta c) = Finished →
                 consumer' theta c = consumer theta c) →
     ending (fol_bc_and n kb goals theta visited consumer _counter) = Finished →
     fol_bc_and m kb goals theta visited consumer' _counter
     = fol_bc_and n kb goals theta visited consumer _counter).
Proof.
  induction n as [|n [IHor IHand]]; [split; intros; discriminate|]. split.
  - intros m goal theta visited consumer consumer' c Hle Hk.
    destruct m as [|m]; [lia|]. simpl.
    destruct (substitute n goal theta) as [current|] eqn:Hcur; [|done].
    rewrite (substitute_mono n m goal theta current) by (done || lia).
    case_bool_decide; [done|].
    destruct (fetch_clauses_for_goal kb goal) as [candidates|]; [|done].
    apply fol_bc_or_clauses_mono; [| |done].
    + intros h r. apply unify_mono. lia.
    + intros goals theta' c'. apply IHand; [lia|done].
  - intros m goals theta visited consumer consumer' c Hle Hk.
    destruct m as [|m]; [lia|]. simpl.
    destruct theta as [theta|]; [|done].
    destruct goals as [|first rest]; [apply Hk|].
    apply IHor; [lia|]. intros theta' c'. apply IHand; [lia|done].
Qed.

Lemma ask_mono (n m : nat) kb query _counter :
  n ≤ m → ending (ask n kb query _counter) = Finished →
  ask m kb query _counter = ask n kb query _counter.
Proof.
  intros Hle. destruct query; simpl.
  - by apply fol_bc_mono_mutual.
  - by apply fol_bc_mono_mutual.
Qed.

(** ** The example queries *)

(** C6. On the example knowledge base, with the counter of a new interpreter
    and with the counter that the first query of the script leaves, the query
    [ancestor(x, bart)] comes to its end after three substitutions, which bind
    [x] to [homer], [mona] and [abe], in this order. *)
Theorem ancestor_answers_in_order fuel _counter :
  14 ≤ fuel → _counter = 0 ∨ _counter = 11 →
  let r := ask fuel family_kb ancestor_of_bart _counter in
  ending r = Finished ∧ length (yielded r) = 3 ∧
  ∀ n, 2 ≤ n →
    answers n r
    = [Some (Constant "homer"); Some (Constant "mona"); Some (Constant "abe")].
Proof.
  intros Hfuel Hc r.
  assert (r = ask 14 family_kb ancestor_of_bart _counter) as ->.
  { apply ask_mono; [done|]. destruct Hc as [-> | ->]; vm_compute; reflexivity. }
  split; [destruct Hc as [-> | ->]; vm_compute; reflexivity|].
  split; [destruct Hc as [-> | ->]; vm_compute; reflexivity|].
  intros n Hn.
  assert (answers n (ask 14 family_kb ancestor_of_bart _counter)
          = answers 2 (ask 14 family_kb ancestor_of_bart _counter)) as ->.
  { unfold answers. apply list_fmap_ext. intros i theta Hth.
    destruct (substitute 2 (Var "x") theta) as [t|] eqn:Ht.
    - by apply (substitute_mono 2 n).
    - exfalso. revert theta Hth Ht.
      assert (Forall (λ theta, substitute 2 (Var "x") theta ≠ None)
                (yielded (ask 14 family_kb ancestor_of_bart _counter))) as Hall.
      { destruct Hc as [-> | ->]; vm_compute; repeat constructor; discriminate. }
      intros theta Hth Ht. rewrite Forall_forall in Hall.
      apply (Hall theta); [|done]. by eapply list_elem_of_lookup_2. }
  destruct Hc as [-> | ->]; vm_compute; reflexivity.
Qed.

Lemma ancestor_answers_in_order_witness :
  (14 ≤ 14 ∧ (0 = 0 ∨ 0 = 11)) ∧
  let r := ask 14 family_kb ancestor_of_bart 0 in
  ending r = Finished ∧ length (yielded r) = 3 ∧
  ∀ n, 2 ≤ n →
    answers n r
    = [Some (Constant "homer"); Some (Constant "mona"); Some (Constant "abe")].
Proof.
  split; [split; [lia | left; reflexivity]|].
  apply (ancestor_answers_in_order 14 0); [lia | left; reflexivity].
Defined.

Lemma backward_chaining_sound_witness :
  let goals := [Predicate "father" [Constant "abe"; Constant "homer"];
                Predicate "parent" [Constant "homer"; Constant "bart"]] in
  let theta : Subst :=
    <["_y2" := Constant "bart"]> (<["_x2" := Constant "homer"]> ∅) in
  let goal := Predicate "parent" [Constant "homer"; Constant "bart"] in
  (add_clauses KnowledgeBase_init family_clauses = (family_kb, Finished) ∧
   theta ∈ yielded (ask 10 family_kb (Conjunction goals) 0) ∧
   goal ∈ goals) ∧
  ∃ t n, (∀ m, n ≤ m → substitute m goal theta = Some t) ∧
         derivable family_clauses t.
Proof.
  intros goals theta goal.
  assert (H1 : add_clauses KnowledgeBase_init family_clauses
               = (family_kb, Finished)) by (vm_compute; reflexivity).
  assert (H2 : theta ∈ yielded (ask 10 family_kb (Conjunction goals) 0)).
  { assert (yielded (ask 10 family_kb (Conjunction goals) 0) = [theta]) as ->
      by (vm_compute; reflexivity).
    apply list_elem_of_here. }
  assert (H3 : goal ∈ goals) by (apply list_elem_of_further, list_elem_of_here).
  split; [by repeat split|].
  exact (backward_chaining_sound family_clauses family_kb 10 goals 0 theta goal
           H1 H2 H3).
Defined.

(** ** A ground proof that the search does not find *)

(** C8, on the code: with the single fact [p(X, X)] the ground atom
    [p(c, c)] follows from the knowledge base, yet [ask] on it comes to its
    end without a substitution, and yields none whatever the fuel: the
    second pair of arguments is the renamed [X], by then bound to [c],
    against [c], and [unify] rejects two equal constants that it reaches
    only after [substitute]. *)
Theorem ground_proof_not_found :
  add_clauses KnowledgeBase_init reflexive_clauses = (reflexive_kb, Finished) ∧
  derivable reflexive_clauses p_c_c ∧
  unify 5 (Predicate "p" [Var "_X1"; Var "_X1"]) p_c_c (Some ∅) = Some None ∧
  ask 6 reflexive_kb (SingleGoal p_c_c) 0 = mkRun [] Finished 1 ∧
  ∀ fuel, yielded (ask fuel reflexive_kb (SingleGoal p_c_c) 0) = [].
Proof.
  split; [vm_compute; reflexivity|]. split; [|split; [|split]].
  - change p_c_c with
      (inst (λ _, Constant "c") (head (mkClause (Predicate "p" [Var "X"; Var "X"]) []))).
    apply derivable_clause; [apply list_elem_of_here|].
    intros b Hb. by apply elem_of_nil in Hb.
  - vm_compute. reflexivity.
  - vm_compute. reflexivity.
  - intros fuel. destruct (decide (6 ≤ fuel)) as [Hle|Hlt].
    + rewrite (ask_mono 6 fuel) by (done || (vm_compute; reflexivity)).
      vm_compute. reflexivity.
    + do 6 (destruct fuel as [|fuel]; [vm_compute; reflexivity|]). lia.
Qed.

(** The other queries of the example script, in the order of the script. *)
Example grandparent_abe_bart :
  let r := ask 14 family_kb
             (SingleGoal (Predicate "grandparent" [Constant "abe"; Constant "bart"]))
             0 in
  length (yielded r) = 1 ∧ ending r = Finished ∧ counter_after r = 11.
Proof. vm_compute. done. Qed.

Example grandparent_bart_abe :
  ask 14 family_kb
    (SingleGoal (Predicate "grandparent" [Constant "bart"; Constant "abe"])) 0
  = mkRun [] Finished 6.
Proof. vm_compute. reflexivity. Qed.

Example father_abe_bart_and_mother_homer_bart :
  ask 14 family_kb
    (Conjunction [Predicate "father" [Constant "abe"; Constant "bart"];
                  Predicate "mother" [Constant "homer"; Constant "bart"]]) 0
  = mkRun [] Finished 2.
Proof. vm_compute. reflexivity. Qed.

(** * Further properties of the code *)

(** ** Equality and substitution *)

(** X1. The [__eq__] methods of the four classes decide structural equality:
    two expressions are equal exactly when they have the same class, the same
    name and, argument by argument, equal arguments. *)
Theorem eq_is_structural (x y : Expr) : Expr_eqb x y = true ↔ x = y.
Proof. apply Expr_eqb_spec. Qed.

(** X2. [substitute] returns a term as it is when [theta] binds none of its
    variables, whatever else [theta] holds. *)
Theorem substitute_unbound_identity theta t (n : nat) :
  (∀ v, v ∈ vars t → theta !! v = None) → height t < n →
  substitute n t theta = Some t.
Proof. apply substitute_resolved_id. Qed.

Lemma substitute_unbound_identity_witness :
  let theta : Subst := <["X" := Var "X"]> ∅ in
  let t := Function "f" [Var "Y"; Constant "a"] in
  ((∀ v, v ∈ vars t → theta !! v = None) ∧ height t < 2) ∧
  substitute 2 t theta = Some t.
Proof.
  intros theta t.
  assert (H : ∀ v, v ∈ vars t → theta !! v = None).
  { intros v Hv. simpl in Hv. apply list_elem_of_singleton in Hv. by subst. }
  assert (H2 : height t < 2) by (simpl; lia).
  split; [by split|]. exact (substitute_unbound_identity theta t 2 H H2).
Defined.

(** X3. No variable of a term that [substitute] returns is bound by
    [theta], for every [theta]. *)
Theorem substitute_result_unbound n x theta t v :
  substitute n x theta = Some t → v ∈ vars t → theta !! v = None.
Proof. intros H. by apply (substitute_resolved n x theta t). Qed.

Lemma substitute_result_unbound_witness :
  let theta : Subst := <["Y" := Constant "b"]> (<["X" := Var "Y"]> ∅) in
  let x := Function "g" [Var "X"; Var "Z"] in
  let t := Function "g" [Constant "b"; Var "Z"] in
  (substitute 4 x theta = Some t ∧ "Z" ∈ vars t) ∧ theta !! "Z" = None.
Proof.
  intros theta x t.
  assert (H1 : substitute 4 x theta = Some t) by (vm_compute; reflexivity).
  assert (H2 : "Z" ∈ vars t) by (simpl; apply list_elem_of_here).
  split; [by split|]. exact (substitute_result_unbound 4 x theta t "Z" H1 H2).
Defined.

Lemma substitute_through_cycle theta v t :
  theta !! v = Some t → v ∈ vars t →
  ∀ n x, v ∈ vars x → substitute n x theta = None.
Proof.
  intros Hv Ht. induction n as [|n IH]; intros x Hx; [done|].
  destruct x as [w|c|f l|p l]; simpl in *.
  - apply list_elem_of_singleton in Hx as ->. rewrite Hv. by apply IH.
  - by apply elem_of_nil in Hx.
  - apply list_elem_of_join in Hx as (k & Hk & Hin).
    apply list_elem_of_fmap in Hin as (a & -> & Ha).
    assert (mapM (λ arg, substitute n arg theta) l = None) as ->; [|done].
    apply mapM_None, Exists_exists. exists a. split; [done|]. by apply IH.
  - apply list_elem_of_join in Hx as (k & Hk & Hin).
    apply list_elem_of_fmap in Hin as (a & -> & Ha).
    assert (mapM (λ arg, substitute n arg theta) l = None) as ->; [|done].
    apply mapM_None, Exists_exists. exists a. split; [done|]. by apply IH.
Qed.

(** X4. Under a substitution that binds a variable to a term in which that
    variable occurs, [substitute] returns on no expression that contains the
    variable: the recursion does not end. *)
Theorem substitute_diverges_on_cycle theta v t x n :
  theta !! v = Some t → v ∈ vars t → v ∈ vars x →
  substitute n x theta = None.
Proof. intros Hv Ht Hx. by apply (substitute_through_cycle theta v t). Qed.

Lemma substitute_diverges_on_cycle_witness :
  let theta : Subst := <["X" := Function "f" [Var "X"]]> ∅ in
  (theta !! "X" = Some (Function "f" [Var "X"]) ∧
   "X" ∈ vars (Function "f" [Var "X"]) ∧
   "X" ∈ vars (Predicate "p" [Constant "a"; Var "X"])) ∧
  substitute 50 (Predicate "p" [Constant "a"; Var "X"]) theta = None.
Proof.
  intros theta.
  assert (H1 : theta !! "X" = Some (Function "f" [Var "X"])) by reflexivity.
  assert (H2 : "X" ∈ vars (Function "f" [Var "X"]))
    by (simpl; apply list_elem_of_here).
  assert (H3 : "X" ∈ vars (Predicate "p" [Constant "a"; Var "X"]))
    by (simpl; apply list_elem_of_here).
  split; [by repeat split|].
  exact (substitute_diverges_on_cycle theta "X" _ _ 50 H1 H2 H3).
Defined.

Lemma occurs_check_value theta v x x1 (n0 n : nat) :
  substitute n0 x theta = Some x1 → n0 < n → S (height x1) < n →
  occurs_check n v x theta = Some (bool_decide (v ∈ vars x1)).
Proof.
  intros Hx Hn0 Hn.
  destruct (occurs_check_total theta v x x1 n0 n Hx Hn0 Hn) as [b Hb].
  rewrite Hb. f_equal.
  apply occurs_check_sound in Hb as (x2 & Hx2 & Hiff).
  rewrite <- (resolves_fun _ _ _ _ (ex_intro _ n0 Hx) Hx2) in Hiff.
  destruct b.
  - symmetry. apply bool_decide_eq_true. by apply Hiff.
  - symmetry. apply bool_decide_eq_false. intros Hin. by apply Hiff in Hin.
Qed.

(** X5. What [occurs_check] answers: when [substitute] returns [x1] on [x],
    the check returns, given the fuel for that and for a walk through [x1],
    and it returns whether the variable occurs in [x1]. *)
Theorem occurs_check_decides theta v x x1 (n0 n : nat) :
  substitute n0 x theta = Some x1 → n0 < n → S (height x1) < n →
  occurs_check n v x theta = Some (bool_decide (v ∈ vars x1)).
Proof. apply occurs_check_value. Qed.

Lemma occurs_check_decides_witness :
  let theta : Subst := <["Y" := Function "g" [Var "X"]]> ∅ in
  let x := Function "f" [Var "Y"] in
  let x1 := Function "f" [Function "g" [Var "X"]] in
  (substitute 4 x theta = Some x1 ∧ 4 < 5 ∧ S (height x1) < 5) ∧
  occurs_check 5 "X" x theta = Some (bool_decide ("X" ∈ vars x1)).
Proof.
  intros theta x x1.
  assert (H1 : substitute 4 x theta = Some x1) by (vm_compute; reflexivity).
  assert (H2 : 4 < 5) by lia.
  assert (H3 : S (height x1) < 5) by (simpl; lia).
  split; [by repeat split|].
  exact (occurs_check_decides theta "X" x x1 4 5 H1 H2 H3).
Defined.

(** ** Unification *)

(** X6. Unification under an acyclic substitution: a substitution returned
    extends the one given, is acyclic again, and both expressions resolve to
    one term under it. *)
Theorem unify_sound_under_acyclic n x y theta theta' :
  acyclic theta → unify n x y (Some theta) = Some (Some theta') →
  theta ⊆ theta' ∧ acyclic theta' ∧
  ∃ t k, ∀ m, k ≤ m →
    substitute m x theta' = Some t ∧ substitute m y theta' = Some t.
Proof.
  intros Hac H. destruct (unify_sound n x y theta theta' Hac H)
    as (Hsub & Hac' & t & Hx & Hy).
  split; [done|]. split; [done|]. exists t. by apply resolves_both.
Qed.

Lemma substitute_vars n x theta t v :
  substitute n x theta = Some t → v ∈ vars t →
  v ∈ vars x ∨ ∃ w u, theta !! w = Some u ∧ v ∈ vars u.
Proof.
  revert x t. induction n as [|n IH]; intros x t H Hv; [discriminate|].
  destruct x as [w|c|f l|p l]; simpl in H.
  - destruct (theta !! w) as [u|] eqn:Hw; [|simplify_eq; by left].
    right. destruct (IH u t H Hv) as [?|?]; eauto.
  - simplify_eq. by left.
  - destruct (mapM _ l) as [k|] eqn:E; simplify_eq/=. apply mapM_Some in E.
    apply list_elem_of_join in Hv as (vs & Hvs & Hin).
    apply list_elem_of_fmap in Hin as (a' & -> & Ha').
    apply list_elem_of_lookup in Ha' as [i Hi].
    destruct (Forall2_lookup_r _ _ _ _ _ E Hi) as (a & Ha & Hsub).
    destruct (IH a a' Hsub Hvs) as [?|?]; [left|by right].
    apply (elem_of_vars_compound (Function f l) l); [done|].
    exists a. split; [by eapply list_elem_of_lookup_2|done].
  - destruct (mapM _ l) as [k|] eqn:E; simplify_eq/=. apply mapM_Some in E.
    apply list_elem_of_join in Hv as (vs & Hvs & Hin).
    apply list_elem_of_fmap in Hin as (a' & -> & Ha').
    apply list_elem_of_lookup in Ha' as [i Hi].
    destruct (Forall2_lookup_r _ _ _ _ _ E Hi) as (a & Ha & Hsub).
    destruct (IH a a' Hsub Hvs) as [?|?]; [left|by right].
    apply (elem_of_vars_compound (Predicate p l) l); [done|].
    exists a. split; [by eapply list_elem_of_lookup_2|done].
Qed.

Lemma substitute_mentions n x theta t v :
  substitute n x theta = Some t → v ∈ vars t → mentions theta v ∨ v ∈ vars x.
Proof.
  intros H Hv. destruct (substitute_vars n x theta t v H Hv) as [?|?];
    [by right|left; by right].
Qed.

Lemma mentions_insert (theta : Subst) var x v :
  mentions (<[var := x]> theta) v → mentions theta v ∨ v = var ∨ v ∈ vars x.
Proof.
  intros [[u Hu]|(w & u & Hw & Hv)].
  - destruct (decide (var = v)) as [->|Hne]; [by right; left|].
    rewrite lookup_insert_ne in Hu by done. left. left. by exists u.
  - destruct (decide (var = w)) as [->|Hne].
    + rewrite lookup_insert_eq in Hw. simplify_eq. by right; right.
    + rewrite lookup_insert_ne in Hw by done. left. right. eauto.
Qed.

Lemma unify_args_mentions
    (rec : Expr → Expr → option Subst → option (option Subst))
    pairs theta theta' v :
  (∀ x y th th', rec x y (Some th) = Some (Some th') → mentions th' v →
                 mentions th v ∨ v ∈ vars x ∨ v ∈ vars y) →
  unify_args rec pairs theta = Some (Some theta') → mentions theta' v →
  mentions theta v ∨ ∃ p, p ∈ pairs ∧ (v ∈ vars p.1 ∨ v ∈ vars p.2).
Proof.
  intros Hrec. revert theta.
  induction pairs as [|[a b] pairs IH]; intros theta H Hv; simpl in H.
  - simplify_eq. by left.
  - destruct (rec a b (Some theta)) as [[th1|]|] eqn:Hab; simplify_eq/=.
    destruct (IH th1 H Hv) as [Hm|(p & Hp & Hpv)].
    + destruct (Hrec a b theta th1 Hab Hm) as [?|Hab']; [by left|].
      right. exists (a, b). split; [apply list_elem_of_here|done].
    + right. exists p. split; [by apply list_elem_of_further|done].
Qed.

Lemma unify_mentions_mutual (n : nat) v :
  (∀ x y theta theta', unify n x y (Some theta) = Some (Some theta') →
     mentions theta' v → mentions theta v ∨ v ∈ vars x ∨ v ∈ vars y) ∧
  (∀ var x theta theta', unify_var n var x theta = Some (Some theta') →
     mentions theta' v → mentions theta v ∨ v = var ∨ v ∈ vars x).
Proof.
  induction n as [|n [IHu IHv]]; [split; intros; discriminate|]. split.
  - intros x y theta theta' H Hm. rewrite unify_S in H.
    destruct (decide (x = y)); [simplify_eq; by left|].
    destruct (substitute n x theta) as [x1|] eqn:Hx; simplify_eq/=.
    destruct (substitute n y theta) as [y1|] eqn:Hy; simplify_eq/=.
    assert (mentions theta v ∨ v ∈ vars x1 ∨ v ∈ vars y1) as Hres.
    { destruct x1 as [v0|c|f xs|p xs].
      { destruct (IHv v0 y1 theta theta' H Hm) as [?|[->|?]]; eauto.
        right; left. simpl. apply list_elem_of_here. }
      all: destruct y1 as [w0|d|g ys|q ys]; simpl in H; try done.
      all: try (destruct (IHv w0 _ theta theta' H Hm) as [?|[->|?]];
                [eauto|right; right; simpl; apply list_elem_of_here|eauto]).
      all: destruct (_ && _); [|done].
      all: destruct (unify_args_mentions _ _ _ _ v IHu H Hm)
             as [?|([a b] & Hp & Hv)]; [by left|right].
      all: simpl in Hv; destruct Hv as [Hv|Hv]; [left|right];
             (eapply elem_of_vars_compound; [reflexivity|]);
             eexists; (split; [|exact Hv]).
      all: first [by eapply elem_of_zip_l | by eapply elem_of_zip_r]. }
    destruct Hres as [?|[Hv|Hv]]; [by left| |].
    + destruct (substitute_mentions _ _ _ _ _ Hx Hv); eauto.
    + destruct (substitute_mentions _ _ _ _ _ Hy Hv); eauto.
  - intros var x theta theta' H Hm. rewrite unify_var_S in H.
    destruct (theta !! var) as [t|] eqn:Hvar.
    { destruct (IHu t x theta theta' H Hm) as [?|[Ht|?]]; eauto.
      left. right. eauto. }
    destruct (match x with Var w => theta !! w | _ => None end) as [t|] eqn:Hw.
    { destruct x as [w| | |]; simplify_eq/=.
      destruct (IHu (Var var) t theta theta' H Hm) as [?|[Hv|Ht]]; eauto.
      - simpl in Hv. apply list_elem_of_singleton in Hv. eauto.
      - left. right. eauto. }
    destruct (occurs_check n var x theta) as [[|]|]; simplify_eq/=.
    by apply mentions_insert.
Qed.

(** X7. [unify] binds nothing but variables of its arguments: every variable
    that the returned substitution binds or mentions is bound or mentioned
    by the one given, or occurs in [x] or in [y]. *)
Theorem unify_mentions n x y theta theta' v :
  unify n x y (Some theta) = Some (Some theta') → mentions theta' v →
  mentions theta v ∨ v ∈ vars x ∨ v ∈ vars y.
Proof. apply unify_mentions_mutual. Qed.

Lemma unify_sound_under_acyclic_witness :
  let theta : Subst := <["X" := Constant "a"]> ∅ in
  let theta' : Subst := <["Y" := Constant "a"]> theta in
  let x := Function "f" [Var "X"] in
  let y := Function "f" [Var "Y"] in
  (acyclic theta ∧ unify 5 x y (Some theta) = Some (Some theta')) ∧
  theta ⊆ theta' ∧ acyclic theta' ∧
  ∃ t k, ∀ m, k ≤ m →
    substitute m x theta' = Some t ∧ substitute m y theta' = Some t.
Proof.
  intros theta theta' x y.
  assert (H1 : acyclic theta).
  { apply produced_acyclic.
    apply (produced_unify 4 (Var "X") (Constant "a") ∅); [constructor|].
    vm_compute. reflexivity. }
  assert (H2 : unify 5 x y (Some theta) = Some (Some theta'))
    by (vm_compute; reflexivity).
  split; [by split|]. exact (unify_sound_under_acyclic 5 x y theta theta' H1 H2).
Defined.

Lemma unify_mentions_witness :
  let theta' : Subst := <["Y" := Constant "b"]> (<["X" := Constant "a"]> ∅) in
  let x := Function "f" [Var "X"; Constant "b"] in
  let y := Function "f" [Constant "a"; Var "Y"] in
  (unify 5 x y (Some ∅) = Some (Some theta') ∧ mentions theta' "Y") ∧
  (mentions ∅ "Y" ∨ "Y" ∈ vars x ∨ "Y" ∈ vars y).
Proof.
  intros theta' x y.
  assert (H1 : unify 5 x y (Some ∅) = Some (Some theta'))
    by (vm_compute; reflexivity).
  assert (H2 : mentions theta' "Y") by (left; by exists (Constant "b")).
  split; [by split|]. exact (unify_mentions 5 x y ∅ theta' "Y" H1 H2).
Defined.

(** X8. Two expressions that differ as written and resolve to the same
    constant, or to the same unbound variable, are not unified: [unify]
    compares them before [substitute] only, and returns [None]. *)
Theorem unify_rejects_equal_atoms theta x y t :
  x ≠ y → args t = None →
  resolves theta x t → resolves theta y t →
  ∃ n, ∀ m, n ≤ m → unify m x y (Some theta) = Some None.
Proof.
  intros Hne Ht Hx Hy.
  destruct (resolves_both theta x y t Hx Hy) as [n0 Hn0].
  exists (n0 + 4). intros m Hm.
  destruct m as [|m]; [lia|]. rewrite unify_S.
  destruct (decide (x = y)); [done|].
  destruct (Hn0 m) as [-> ->]; [lia|]. simpl.
  destruct t as [w|c| |]; try discriminate; [|done].
  destruct m as [|m]; [lia|]. rewrite unify_var_S.
  assert (theta !! w = None) as Hw.
  { apply (resolves_resolved theta x (Var w) Hx). simpl. apply list_elem_of_here. }
  rewrite Hw.
  destruct m as [|[|m]]; [lia..|]. rewrite occurs_check_S. simpl. rewrite Hw.
  simpl. by rewrite decide_True.
Qed.

Lemma unify_rejects_equal_atoms_witness :
  let theta : Subst := <["X" := Constant "c"]> ∅ in
  (Var "X" ≠ Constant "c" ∧ args (Constant "c") = None ∧
   resolves theta (Var "X") (Constant "c") ∧
   resolves theta (Constant "c") (Constant "c")) ∧
  ∃ n, ∀ m, n ≤ m → unify m (Var "X") (Constant "c") (Some theta) = Some None.
Proof.
  intros theta.
  assert (H1 : Var "X" ≠ Constant "c") by discriminate.
  assert (H2 : args (Constant "c") = None) by reflexivity.
  assert (H3 : resolves theta (Var "X") (Constant "c"))
    by (exists 2; vm_compute; reflexivity).
  assert (H4 : resolves theta (Constant "c") (Constant "c"))
    by (exists 1; reflexivity).
  split; [by repeat split|].
  exact (unify_rejects_equal_atoms theta _ _ _ H1 H2 H3 H4).
Defined.

(** X9. Unifying an unbound variable with a term that [theta] leaves as it is
    and in which the variable does not occur adds that one binding; the
    order of the two arguments does not matter when the term is no
    variable. *)
Theorem unify_binds_unbound_variable (theta : Subst) v t :
  theta !! v = None → (∀ w, w ∈ vars t → theta !! w = None) → v ∉ vars t →
  ∃ n, ∀ m, n ≤ m →
    unify m (Var v) t (Some theta) = Some (Some (<[v := t]> theta)) ∧
    (is_variable t = false →
     unify m t (Var v) (Some theta) = Some (Some (<[v := t]> theta))).
Proof.
  intros Hv Ht Hnot. exists (height t + 4). intros m Hm.
  assert (Var v ≠ t) as Hne.
  { intros <-. apply Hnot. simpl. apply list_elem_of_here. }
  assert (∀ k, height t < k → substitute k t theta = Some t) as Hid
    by (intros; by apply substitute_resolved_id).
  assert (∀ k, 0 < k → substitute k (Var v) theta = Some (Var v)) as Hidv.
  { intros [|k] Hk; [lia|]. simpl. by rewrite Hv. }
  assert (∀ k, height t + 2 < k →
            unify_var k v t theta = Some (Some (<[v := t]> theta))) as Hvar.
  { intros [|k] Hk; [lia|]. rewrite unify_var_S, Hv.
    assert ((match t with Var w => theta !! w | _ => None end) = None) as ->.
    { destruct t as [w| | |]; try done. apply Ht. simpl. apply list_elem_of_here. }
    rewrite (occurs_check_value theta v t t (S (height t)) k)
      by (try apply Hid; lia).
    by rewrite bool_decide_eq_false_2. }
  destruct m as [|m]; [lia|]. rewrite !unify_S.
  rewrite decide_False by done. rewrite decide_False by done.
  rewrite (Hid m), (Hidv m) by lia. simpl. split.
  - apply Hvar. lia.
  - intros Hnv. destruct t as [w| | |]; try discriminate; apply Hvar; lia.
Qed.

Lemma unify_binds_unbound_variable_witness :
  let theta : Subst := <["Z" := Constant "a"]> ∅ in
  let t := Function "f" [Var "Y"] in
  (theta !! "X" = None ∧ (∀ w, w ∈ vars t → theta !! w = None) ∧ "X" ∉ vars t) ∧
  ∃ n, ∀ m, n ≤ m →
    unify m (Var "X") t (Some theta) = Some (Some (<["X" := t]> theta)) ∧
    (is_variable t = false →
     unify m t (Var "X") (Some theta) = Some (Some (<["X" := t]> theta))).
Proof.
  intros theta t.
  assert (H1 : theta !! "X" = None) by reflexivity.
  assert (H2 : ∀ w, w ∈ vars t → theta !! w = None).
  { intros w Hw. simpl in Hw. apply list_elem_of_singleton in Hw. by subst. }
  assert (H3 : "X" ∉ vars t).
  { intros Hin. simpl in Hin. apply list_elem_of_singleton in Hin. discriminate. }
  split; [by repeat split|].
  exact (unify_binds_unbound_variable theta "X" t H1 H2 H3).
Defined.

(** ** Termination of unification *)

Lemma term_size_compound x l a :
  args x = Some l → a ∈ l → term_size a < term_size x.
Proof.
  intros Hx Ha.
  assert (term_size a ≤ sum_list (term_size <$> l)).
  { apply (sum_list_with_in (term_size a) id), list_elem_of_fmap. eauto. }
  destruct x; simplify_eq/=; lia.
Qed.

Lemma unify_var_returns_resolved (theta : Subst) v t (k : nat) :
  theta !! v = None → resolved theta t → height t + 2 < k →
  ∃ r, unify_var k v t theta = Some r.
Proof.
  intros Hv Ht Hk. destruct k as [|k]; [lia|]. rewrite unify_var_S, Hv.
  assert ((match t with Var w => theta !! w | _ => None end) = None) as ->.
  { destruct t as [w| | |]; try done. apply Ht. simpl. apply list_elem_of_here. }
  destruct (occurs_check_total theta v t t (S (height t)) k) as [b Hb];
    [by apply substitute_resolved_id; [|lia]|lia..|].
  rewrite Hb. simpl. destruct b; eauto.
Qed.

Lemma unify_args_returns pairs (theta : Subst) (Inv : Subst → Prop) :
  Inv theta →
  (∀ a b th th' n, (a, b) ∈ pairs → Inv th →
     unify n a b (Some th) = Some (Some th') → Inv th') →
  (∀ a b th, (a, b) ∈ pairs → Inv th → ∃ n r, unify n a b (Some th) = Some r) →
  ∃ n r, unify_args (unify n) pairs theta = Some r.
Proof.
  revert theta. induction pairs as [|[a b] pairs IH]; intros theta Hi Hstep Hret.
  { exists 0. simpl. eauto. }
  destruct (Hret a b theta) as (n1 & r1 & H1); [apply list_elem_of_here|done|].
  destruct r1 as [th1|].
  - destruct (IH th1) as (n2 & r2 & H2).
    + eapply Hstep; [apply list_elem_of_here|done..].
    + intros a' b' th th' n Hin. apply Hstep. by apply list_elem_of_further.
    + intros a' b' th Hin. apply Hret. by apply list_elem_of_further.
    + exists (n1 `max` n2), r2. simpl.
      rewrite (unify_mono n1 (n1 `max` n2) a b (Some theta) (Some th1))
        by (done || lia). simpl.
      eapply unify_args_mono; [|exact H2]. intros ????. apply unify_mono. lia.
  - exists n1, None. simpl. by rewrite H1.
Qed.

Lemma unify_returns_aux (V : gset string) (u s : nat) :
  ∀ theta x y x1 y1,
    acyclic theta → (∀ v, mentions theta v → v ∈ V) →
    (∀ v, v ∈ vars x → v ∈ V) → (∀ v, v ∈ vars y → v ∈ V) →
    size (V ∖ dom theta) ≤ u →
    resolves theta x x1 → resolves theta y y1 →
    term_size x1 + term_size y1 ≤ s →
    ∃ n r, unify n x y (Some theta) = Some r.
Proof.
  revert s. induction u as [u IHu] using lt_wf_ind.
  induction s as [s IHs] using lt_wf_ind.
  intros theta x y x1 y1 Hac HV Hx Hy Hu Hx1 Hy1 Hs.
  destruct (resolves_both theta x x x1 Hx1 Hx1) as [nx Hnx].
  destruct (resolves_both theta y y y1 Hy1 Hy1) as [ny Hny].
  assert (resolved theta x1) as Hrx by by eapply resolves_resolved.
  assert (resolved theta y1) as Hry by by eapply resolves_resolved.
  (* it is enough that what follows the two calls of [substitute] returns *)
  assert (∀ n r, nx ≤ n → ny ≤ n →
            match x1, y1 with
            | Var v, _ => unify_var n v y1 theta
            | _, Var w => unify_var n w x1 theta
            | _, _ =>
                match args x1, args y1 with
                | Some xs, Some ys =>
                    if same_class x1 y1 && bool_decide (name x1 = name y1)
                       && bool_decide (length xs = length ys)
                    then unify_args (unify n) (zip xs ys) theta
                    else Some None
                | _, _ => Some None
                end
            end = Some r →
            ∃ n r, unify n x y (Some theta) = Some r) as Hend.
  { intros n r Hn1 Hn2 H. exists (S n). rewrite unify_S.
    destruct (decide (x = y)); [eauto|].
    destruct (Hnx n Hn1) as [-> _]. destruct (Hny n Hn2) as [-> _]. simpl. eauto. }
  assert (∀ v t, theta !! v = None → resolved theta t →
            ∃ n r, nx ≤ n ∧ ny ≤ n ∧ unify_var n v t theta = Some r) as Hvar.
  { intros v t Hv Ht. set (n := (nx `max` ny) `max` (height t + 3)).
    destruct (unify_var_returns_resolved theta v t n Hv Ht) as [r Hr]; [lia|].
    exists n, r. repeat split; [lia..|done]. }
  assert (∀ v, v ∈ vars x1 → v ∈ V) as Hx1V.
  { intros v Hv. destruct Hx1 as [n Hn].
    destruct (substitute_mentions n x theta x1 v Hn Hv); auto. }
  assert (∀ v, v ∈ vars y1 → v ∈ V) as Hy1V.
  { intros v Hv. destruct Hy1 as [n Hn].
    destruct (substitute_mentions n y theta y1 v Hn Hv); auto. }
  (* the loop over the arguments of two compounds *)
  assert (∀ xs ys, args x1 = Some xs → args y1 = Some ys →
            ∃ n r, nx ≤ n ∧ ny ≤ n ∧
                   unify_args (unify n) (zip xs ys) theta = Some r) as Hargs.
  { intros xs ys Hxs Hys.
    destruct (unify_args_returns (zip xs ys) theta
                (λ th, theta ⊆ th ∧ acyclic th ∧ ∀ v, mentions th v → v ∈ V))
      as (n & r & Hr).
    - done.
    - intros a b th th' n Hin (Hsub & Hac' & HV') Hun.
      destruct (unify_sound n a b th th' Hac' Hun) as (Hsub' & Hac'' & _).
      split; [by etrans|]. split; [done|]. intros v Hv.
      destruct (proj1 (unify_mentions_mutual n v) a b th th' Hun Hv)
        as [?|[Ha|Hb]]; [auto|..].
      + apply Hx1V. apply (elem_of_vars_compound x1 xs); [done|].
        exists a. split; [by eapply elem_of_zip_l|done].
      + apply Hy1V. apply (elem_of_vars_compound y1 ys); [done|].
        exists b. split; [by eapply elem_of_zip_r|done].
    - intros a b th Hin (Hsub & Hac' & HV').
      assert (a ∈ xs) as Ha by by eapply elem_of_zip_l.
      assert (b ∈ ys) as Hb by by eapply elem_of_zip_r.
      assert (∀ v, v ∈ vars a → v ∈ V) as HaV.
      { intros v Hv. apply Hx1V. apply (elem_of_vars_compound x1 xs); eauto. }
      assert (∀ v, v ∈ vars b → v ∈ V) as HbV.
      { intros v Hv. apply Hy1V. apply (elem_of_vars_compound y1 ys); eauto. }
      destruct (decide (V ∖ dom th = V ∖ dom theta)) as [Heq|Hneq].
      + assert (th = theta) as ->.
        { symmetry. apply subseteq_dom_eq; [done|]. intros v Hv.
          assert (v ∈ V) as HvV by (apply HV'; left; by apply elem_of_dom).
          destruct (decide (v ∈ dom theta)); [done|].
          assert (v ∈ V ∖ dom th) by (rewrite Heq; set_solver). set_solver. }
        apply (IHs (term_size a + term_size b)) with (x1 := a) (y1 := b);
          try done.
        * pose proof (term_size_compound x1 xs a Hxs Ha).
          pose proof (term_size_compound y1 ys b Hys Hb). lia.
        * apply resolved_resolves.
          apply (resolved_compound _ _ xs) in Hrx; [|done].
          rewrite Forall_forall in Hrx. auto.
        * apply resolved_resolves.
          apply (resolved_compound _ _ ys) in Hry; [|done].
          rewrite Forall_forall in Hry. auto.
      + destruct (Hac' a) as [a1 Ha1]. destruct (Hac' b) as [b1 Hb1].
        apply (IHu (size (V ∖ dom th))) with (s := term_size a1 + term_size b1)
                                             (x1 := a1) (y1 := b1); try done.
        eapply Nat.lt_le_trans; [|exact Hu]. apply subset_size.
        apply subseteq_dom in Hsub. set_solver.
    - exists ((n `max` nx) `max` ny), r. repeat split; [lia..|].
      eapply unify_args_mono; [|exact Hr]. intros ????. apply unify_mono. lia. }
  destruct x1 as [v|c|f xs|p xs].
  { destruct (Hvar v y1) as (n & r & ? & ? & Hr); [|done|by eapply Hend].
    apply Hrx. simpl. apply list_elem_of_here. }
  all: destruct y1 as [w|d|g ys|q ys].
  all: try (destruct (Hvar w _ ltac:(apply Hry; simpl; apply list_elem_of_here) Hrx)
              as (n & r & ? & ? & Hr); by eapply Hend).
  all: try (by apply (Hend (nx `max` ny) None); [lia..|]).
  all: destruct (Hargs xs ys eq_refl eq_refl) as (n & r & ? & ? & Hr).
  all: simpl in Hend.
  all: match type of Hend with
       | context [if ?b then _ else _] => destruct b
       end; by eapply Hend.
Qed.

Lemma unify_returns_acyclic theta x y :
  acyclic theta → ∃ n r, ∀ m, n ≤ m → unify m x y (Some theta) = Some r.
Proof.
  intros Hac.
  pose (varset := λ t : Expr, (list_to_set (vars t) : gset string)).
  pose (V := dom theta
             ∪ ⋃ ((λ kt : string * Expr, varset kt.2) <$> map_to_list theta)
             ∪ varset x ∪ varset y).
  destruct (Hac x) as [x1 Hx1]. destruct (Hac y) as [y1 Hy1].
  destruct (unify_returns_aux V (size (V ∖ dom theta))
              (term_size x1 + term_size y1) theta x y x1 y1)
    as (n & r & Hn); try done.
  - intros v [Hv|(w & t & Hw & Hv)].
    + apply elem_of_dom in Hv. unfold V. set_solver.
    + assert (v ∈ ⋃ ((λ kt : string * Expr, varset kt.2)
                       <$> map_to_list theta)); [|unfold V; set_solver].
      apply elem_of_union_list. exists (varset t).
      split; [|by apply elem_of_list_to_set].
      apply list_elem_of_fmap. exists (w, t).
      split; [done|]. by apply elem_of_map_to_list.
  - intros v Hv. assert (v ∈ varset x) by by apply elem_of_list_to_set.
    unfold V. set_solver.
  - intros v Hv. assert (v ∈ varset y) by by apply elem_of_list_to_set.
    unfold V. set_solver.
  - exists n, r. intros m Hm. by apply (unify_mono n m).
Qed.

(** X23. [unify] returns under every acyclic substitution: on all
    expressions [x] and [y] it ends, with a substitution or with [None]. *)
Theorem unify_returns theta x y :
  acyclic theta → ∃ n r, ∀ m, n ≤ m → unify m x y (Some theta) = Some r.
Proof. apply unify_returns_acyclic. Qed.

Lemma unify_returns_witness :
  let x := Function "f" [Var "X"; Function "g" [Var "X"]] in
  let y := Function "f" [Function "g" [Var "Y"]; Var "Y"] in
  acyclic ∅ ∧ ∃ n r, ∀ m, n ≤ m → unify m x y (Some ∅) = Some r.
Proof.
  intros x y. split; [exact acyclic_empty|].
  exact (unify_returns ∅ x y acyclic_empty).
Defined.

(** ** Knowledge base *)

(** X10. [add_clause] and then [fetch_clauses_for_goal]: adding a clause
    whose head is a compound returns, and afterwards a goal with the name and
    the arity of that head gets the candidates it had before followed by the
    new clause, and every other goal gets the candidates it had before. *)
Theorem add_clause_then_fetch kb c l goal lg :
  args (head c) = Some l → args goal = Some lg →
  (add_clause kb c).2 = Finished ∧
  ∃ old, fetch_clauses_for_goal kb goal = Some old ∧
    fetch_clauses_for_goal (add_clause kb c).1 goal =
    Some (if bool_decide (name goal = name (head c) ∧ length lg = length l)
          then old ++ [c] else old).
Proof.
  intros Hl Hg. unfold add_clause. rewrite Hl. simpl. split; [reflexivity|].
  unfold fetch_clauses_for_goal. rewrite Hg. simpl. eexists. split; [done|].
  f_equal. case_bool_decide as Hk.
  - destruct Hk as [-> ->]. rewrite lookup_insert_eq. simpl.
    by rewrite lookup_insert_eq.
  - destruct (decide (name (head c) = name goal)) as [Hn|Hn].
    + rewrite Hn, lookup_insert_eq. simpl.
      rewrite lookup_insert_ne; [done|]. intros Hlen. apply Hk. by rewrite Hn.
    + by rewrite lookup_insert_ne.
Qed.

Lemma add_clause_then_fetch_witness :
  let c := mkClause (Predicate "father" [Constant "bart"; Constant "lisa"]) [] in
  let goal := Predicate "father" [Var "x"; Var "y"] in
  (args (head c) = Some [Constant "bart"; Constant "lisa"] ∧
   args goal = Some [Var "x"; Var "y"]) ∧
  (add_clause family_kb c).2 = Finished ∧
  ∃ old, fetch_clauses_for_goal family_kb goal = Some old ∧
    fetch_clauses_for_goal (add_clause family_kb c).1 goal =
    Some (if bool_decide (name goal = name (head c) ∧
                          length [Var "x"; Var "y"]
                          = length [Constant "bart"; Constant "lisa"])
          then old ++ [c] else old).
Proof.
  intros c goal. split; [by split|].
  exact (add_clause_then_fetch family_kb c _ goal _ eq_refl eq_refl).
Defined.

(** X11. After a sequence of [add_clause] calls on a new knowledge base,
    [fetch_clauses_for_goal] returns the clauses added whose head has the
    name and the number of arguments of the goal, in the order in which they
    were added. *)
Theorem fetch_after_add_clauses cs kb goal l :
  add_clauses KnowledgeBase_init cs = (kb, Finished) → args goal = Some l →
  fetch_clauses_for_goal kb goal =
  Some (filter (λ c, signature (head c) = Some (name goal, length l)) cs).
Proof.
  intros Hkb Hl. apply add_clauses_init_consistent in Hkb as [Hcl Hidx].
  unfold fetch_clauses_for_goal. rewrite Hl. simpl. f_equal.
  fold (bucket kb (name goal) (length l)). by rewrite Hidx, Hcl.
Qed.

Lemma fetch_after_add_clauses_witness :
  let goal := Predicate "parent" [Var "a"; Var "b"] in
  (add_clauses KnowledgeBase_init family_clauses = (family_kb, Finished) ∧
   args goal = Some [Var "a"; Var "b"]) ∧
  fetch_clauses_for_goal family_kb goal =
  Some (filter (λ c, signature (head c) = Some (name goal, 2)) family_clauses).
Proof.
  intros goal.
  assert (H1 : add_clauses KnowledgeBase_init family_clauses
               = (family_kb, Finished)) by (vm_compute; reflexivity).
  split; [by split|].
  exact (fetch_after_add_clauses family_clauses family_kb goal _ H1 eq_refl).
Defined.

(** X12. A sequence of [add_clause] calls returns without an exception
    exactly when the head of every clause is a [Function] or a [Predicate];
    otherwise it ends in [AttributeError]. *)
Theorem add_clauses_returns_iff kb cs :
  ((add_clauses kb cs).2 = Finished ↔
   Forall (λ c, is_compound (head c) = true) cs) ∧
  ((add_clauses kb cs).2 = Finished ∨ (add_clauses kb cs).2 = AttributeError).
Proof.
  revert kb. induction cs as [|c cs IH]; intros kb; simpl.
  { split; [split; [constructor|done]|by left]. }
  unfold add_clause.
  destruct (head c) as [v|d|f l|p l] eqn:Hc; simpl.
  - split; [split; [done|]|by right]. inversion 1; subst. by rewrite Hc in *.
  - split; [split; [done|]|by right]. inversion 1; subst. by rewrite Hc in *.
  - destruct (IH (mkKB (clauses kb ++ [c])
        (<[f := <[length l := default [] (default ∅ (index kb !! f) !! length l)
                               ++ [c]]> (default ∅ (index kb !! f))]> (index kb))))
      as [[H1 H2] H3].
    split; [split|done].
    + intros H. constructor; [by rewrite Hc|by apply H1].
    + inversion 1; subst. by apply H2.
  - destruct (IH (mkKB (clauses kb ++ [c])
        (<[p := <[length l := default [] (default ∅ (index kb !! p) !! length l)
                               ++ [c]]> (default ∅ (index kb !! p))]> (index kb))))
      as [[H1 H2] H3].
    split; [split|done].
    + intros H. constructor; [by rewrite Hc|by apply H1].
    + inversion 1; subst. by apply H2.
Qed.

(** ** Renaming *)

(** X13. [standardize_apart] adds one to the counter and returns the clause
    in which every occurrence of each variable [v], in the head and in the
    body, is the variable named ["_"], [v] and the decimal digits of the new
    counter; names of constants, functions and predicates and the structure
    stay. *)
Theorem standardize_apart_renames clause _counter :
  standardize_apart clause _counter =
  (mkClause (inst (fresh (_counter + 1)) (head clause))
     (inst (fresh (_counter + 1)) <$> body clause),
   _counter + 1).
Proof. apply standardize_apart_spec. Qed.

Lemma string_length_app (s1 s2 : string) :
  String.length (s1 ++ s2) = String.length s1 + String.length s2.
Proof. induction s1 as [|a s1 IH]; simpl; [done|]. by rewrite IH. Qed.

Lemma string_app_inv_tail (s1 s2 p : string) :
  (s1 ++ p = s2 ++ p)%string → s1 = s2.
Proof.
  revert s2. induction s1 as [|a s1 IH]; intros [|b s2] H; simpl in H.
  - done.
  - apply (f_equal String.length) in H.
    rewrite ?string_length_app in H. simpl in H.
    rewrite ?string_length_app in H. lia.
  - apply (f_equal String.length) in H.
    rewrite ?string_length_app in H. simpl in H.
    rewrite ?string_length_app in H. lia.
  - injection H as -> H. f_equal. by apply IH.
Qed.

Lemma fresh_inj n v w : fresh n v = fresh n w → v = w.
Proof.
  unfold fresh. intros [= H].
  change (v +:+ pretty n = w +:+ pretty n) in H.
  by apply string_app_inv_tail in H.
Qed.

Lemma inst_fresh_inj n x y :
  inst (fresh n) x = inst (fresh n) y → x = y.
Proof.
  revert y. induction x as [v|c|f l IH|p l IH] using Expr_nested_ind;
    intros [w|d|g k|q k] H; simpl in H; try discriminate.
  - f_equal. by apply (fresh_inj n).
  - done.
  - injection H as -> H. f_equal. revert k H.
    induction IH as [|a l Ha _ IHl]; intros [|b k] H; simplify_eq/=; [done|].
    f_equal; auto.
  - injection H as -> H. f_equal. revert k H.
    induction IH as [|a l Ha _ IHl]; intros [|b k] H; simplify_eq/=; [done|].
    f_equal; auto.
Qed.

(** X14. Within one call, renaming keeps different clauses different: no two
    variables of a clause get the same fresh name, so two clauses with the
    same copy for the same counter are the same clause. *)
Theorem standardize_apart_inj c1 c2 _counter :
  (standardize_apart c1 _counter).1 = (standardize_apart c2 _counter).1 →
  c1 = c2.
Proof.
  rewrite !standardize_apart_spec. simpl. intros [= Hh Hb].
  destruct c1 as [h1 b1], c2 as [h2 b2]. simpl in *. f_equal.
  - by apply (inst_fresh_inj (_counter + 1)).
  - revert b2 Hb. induction b1 as [|a b1 IH]; intros [|b b2] Hb;
      simplify_eq/=; [done|].
    f_equal; [by apply (inst_fresh_inj (_counter + 1))|by apply IH].
Qed.

Lemma standardize_apart_inj_witness :
  let c := mkClause (Predicate "p" [Var "x"; Var "y"]) [Predicate "q" [Var "x"]] in
  (standardize_apart c 3).1 = (standardize_apart c 3).1 ∧ c = c.
Proof.
  intros c. split; [reflexivity|].
  exact (standardize_apart_inj c c 3 eq_refl).
Defined.

Lemma inst_no_vars sigma x : vars x = [] → inst sigma x = x.
Proof.
  induction x as [v|c|f l IH|p l IH] using Expr_nested_ind; simpl;
    intros H; [discriminate|done| |].
  - f_equal. induction IH as [|a l Ha _ IHl]; [done|].
    simpl in H. apply app_eq_nil in H as [H1 H2]. simpl. f_equal; auto.
  - f_equal. induction IH as [|a l Ha _ IHl]; [done|].
    simpl in H. apply app_eq_nil in H as [H1 H2]. simpl. f_equal; auto.
Qed.

(** X15. A clause without variables is its own copy: [standardize_apart]
    returns it as it is, and adds one to the counter. *)
Theorem standardize_apart_ground clause _counter :
  clause_vars clause = [] →
  standardize_apart clause _counter = (clause, _counter + 1).
Proof.
  intros H. rewrite standardize_apart_spec. unfold clause_vars in H.
  apply app_eq_nil in H as [Hh Hb]. destruct clause as [h b]. simpl in *.
  rewrite inst_no_vars by done. do 2 f_equal.
  induction b as [|a b IH]; [done|]. simpl in Hb.
  apply app_eq_nil in Hb as [H1 H2]. simpl.
  f_equal; [by apply inst_no_vars|by apply IH].
Qed.

Lemma standardize_apart_ground_witness :
  let c := mkClause (Predicate "father" [Constant "abe"; Constant "homer"]) [] in
  clause_vars c = [] ∧ standardize_apart c 7 = (c, 7 + 1).
Proof.
  intros c. split; [reflexivity|].
  exact (standardize_apart_ground c 7 eq_refl).
Defined.

Lemma vars_inst_fresh n x v :
  v ∈ vars (inst (fresh n) x) → ∃ w, w ∈ vars x ∧ Var v = fresh n w.
Proof.
  induction x as [w|c|f l IH|p l IH] using Expr_nested_ind; simpl; intros H.
  - apply list_elem_of_singleton in H as ->. exists w.
    split; [apply list_elem_of_here|done].
  - by apply elem_of_nil in H.
  - apply list_elem_of_join in H as (vs & Hv & Hin).
    apply list_elem_of_fmap in Hin as (a' & -> & Ha').
    apply list_elem_of_fmap in Ha' as (a & -> & Ha).
    rewrite Forall_forall in IH. destruct (IH a Ha Hv) as (w & Hw & Heq).
    exists w. split; [|done]. apply list_elem_of_join.
    exists (vars a). split; [done|]. apply list_elem_of_fmap. eauto.
  - apply list_elem_of_join in H as (vs & Hv & Hin).
    apply list_elem_of_fmap in Hin as (a' & -> & Ha').
    apply list_elem_of_fmap in Ha' as (a & -> & Ha).
    rewrite Forall_forall in IH. destruct (IH a Ha Hv) as (w & Hw & Heq).
    exists w. split; [|done]. apply list_elem_of_join.
    exists (vars a). split; [done|]. apply list_elem_of_fmap. eauto.
Qed.

(** X16. Every variable of a copy is the fresh name of a variable of the
    clause: its name starts with ["_"] and ends with the digits of the new
    counter, so a copy has no variable in common with an expression none of
    whose variable names starts with ["_"]. *)
Theorem standardize_apart_vars clause _counter v :
  v ∈ clause_vars (standardize_apart clause _counter).1 →
  ∃ w, w ∈ clause_vars clause ∧
       v = ("_" ++ w ++ pretty (_counter + 1))%string.
Proof.
  rewrite standardize_apart_spec. unfold clause_vars. simpl. intros H.
  apply elem_of_app in H as [H|H].
  - apply vars_inst_fresh in H as (w & Hw & [= ->]).
    exists w. split; [|done]. apply elem_of_app. by left.
  - apply list_elem_of_join in H as (vs & Hv & Hin).
    apply list_elem_of_fmap in Hin as (a' & -> & Ha').
    apply list_elem_of_fmap in Ha' as (a & -> & Ha).
    apply vars_inst_fresh in Hv as (w & Hw & [= ->]).
    exists w. split; [|done]. apply elem_of_app. right.
    apply list_elem_of_join. exists (vars a). split; [done|].
    apply list_elem_of_fmap. eauto.
Qed.

Lemma standardize_apart_vars_witness :
  let c := mkClause (Predicate "parent" [Var "x"; Var "y"])
             [Predicate "father" [Var "x"; Var "y"]] in
  "_y4" ∈ clause_vars (standardize_apart c 3).1 ∧
  ∃ w, w ∈ clause_vars c ∧ "_y4" = ("_" ++ w ++ pretty (3 + 1))%string.
Proof.
  intros c.
  assert (H : "_y4" ∈ clause_vars (standardize_apart c 3).1).
  { vm_compute. apply list_elem_of_further, list_elem_of_here. }
  split; [exact H|]. exact (standardize_apart_vars c 3 "_y4" H).
Defined.

(** X17. One variable gets different names in copies made at different
    values of the counter. *)
Theorem fresh_names_differ_by_counter (n m : nat) v :
  fresh n v = fresh m v → n = m.
Proof.
  unfold fresh. intros [= H].
  induction v as [|a v IH]; simpl in H; [by apply (inj pretty)|].
  injection H as H. auto.
Qed.

Lemma fresh_names_differ_by_counter_witness :
  fresh 5 "x" = fresh 5 "x" ∧ 5 = 5.
Proof. split; [reflexivity|]. exact (fresh_names_differ_by_counter 5 5 "x" eq_refl). Defined.

(** ** Backward chaining *)

Section invariant.
Variable Inv : Subst → Prop.
Variable P : Subst → Prop.
Hypothesis unify_Inv :
  ∀ n x y theta theta',
    Inv theta → unify n x y (Some theta) = Some (Some theta') → Inv theta'.

Lemma fol_bc_or_clauses_invariant
    (unify_head : Expr → option (option Subst))
    (prove_body : list Expr → Subst → nat → run)
    (consumer : Subst → nat → run) candidates _counter :
  (∀ h theta', unify_head h = Some (Some theta') → Inv theta') →
  (∀ goals theta' c', Inv theta' → yields_only P (prove_body goals theta' c')) →
  (∀ theta' c', Inv theta' → yields_only P (consumer theta' c')) →
  yields_only P
    (fol_bc_or_clauses unify_head prove_body consumer candidates _counter).
Proof.
  intros Hu Hb Hk. revert _counter.
  induction candidates as [|clause candidates IH]; intros c; simpl.
  { constructor. }
  destruct (standardize_apart clause c) as [clause_copy c1].
  destruct (unify_head (head clause_copy)) as [[theta'|]|] eqn:Hun;
    [|apply IH|constructor].
  apply then_run_yields; [|intros; apply IH].
  destruct (body clause_copy); [apply Hk|apply Hb]; by eapply Hu.
Qed.

Lemma fol_bc_invariant_mutual kb n :
  (∀ goal theta visited consumer _counter,
     Inv theta →
     (∀ theta' c', Inv theta' → yields_only P (consumer theta' c')) →
     yields_only P (fol_bc_or n kb goal theta visited consumer _counter)) ∧
  (∀ goals theta visited consumer _counter,
     Inv theta →
     (∀ theta' c', Inv theta' → yields_only P (consumer theta' c')) →
     yields_only P
       (fol_bc_and n kb goals (Some theta) visited consumer _counter)).
Proof.
  induction n as [|n [IHor IHand]]; [split; intros; constructor|]. split.
  - intros goal theta visited consumer c Hi Hk. simpl.
    destruct (substitute n goal theta) as [current|]; [|constructor].
    case_bool_decide; [constructor|].
    destruct (fetch_clauses_for_goal kb goal) as [candidates|]; [|constructor].
    apply fol_bc_or_clauses_invariant; [|by auto|done].
    intros h theta' Hun. by eapply unify_Inv.
  - intros goals theta visited consumer c Hi Hk. simpl.
    destruct goals as [|first rest]; [by apply Hk|].
    apply IHor; [done|]. intros theta' c' Hi'. by apply IHand.
Qed.

End invariant.

(** X18. Every substitution that [ask] yields is acyclic: [substitute]
    returns under it on every expression, and returns on its result that
    result again. *)
Theorem ask_yields_acyclic fuel kb query _counter theta t :
  theta ∈ yielded (ask fuel kb query _counter) →
  ∃ t' n, ∀ m, n ≤ m →
    substitute m t theta = Some t' ∧ substitute m t' theta = Some t'.
Proof.
  intros Hth.
  assert (yields_only acyclic (ask fuel kb query _counter)) as Hall.
  { assert (∀ n x y th th', acyclic th →
              unify n x y (Some th) = Some (Some th') → acyclic th') as Hu.
    { intros n x y th th' Hac H.
      by destruct (unify_sound n x y th th' Hac H) as (_ & ? & _). }
    destruct query as [goal|goals]; simpl.
    - apply (fol_bc_invariant_mutual acyclic acyclic Hu kb fuel);
        [apply acyclic_empty|]. intros th c Hac. by repeat constructor.
    - apply (fol_bc_invariant_mutual acyclic acyclic Hu kb fuel);
        [apply acyclic_empty|]. intros th c Hac. by repeat constructor. }
  unfold yields_only in Hall. rewrite Forall_forall in Hall.
  destruct (Hall theta Hth t) as [t' Ht'].
  exists t'. apply resolves_both; [done|]. by eapply resolves_idem.
Qed.

(** X19. A query for a goal without arguments, a [Variable] or a [Constant],
    ends in [AttributeError] before anything is yielded or renamed. *)
Theorem ask_non_compound_goal_raises kb goal _counter (m : nat) :
  args goal = None → 2 ≤ m →
  ask m kb (SingleGoal goal) _counter = mkRun [] AttributeError _counter.
Proof.
  intros Hg Hm. destruct m as [|[|m]]; [lia..|].
  unfold ask, fol_bc_or. rewrite substitute_empty by (destruct goal; simpl in *; done || lia).
  rewrite bool_decide_eq_false_2 by apply not_elem_of_nil.
  unfold fetch_clauses_for_goal. by rewrite Hg.
Qed.

(** X20. A conjunction of one goal is that goal: when the query for the goal
    comes to its end, the query for the list of that one goal gives the same
    substitutions, in the same order, and leaves the same counter, with one
    more level of recursion. *)
Theorem ask_singleton_conjunction kb goal _counter (n : nat) :
  ending (ask n kb (SingleGoal goal) _counter) = Finished →
  ask (S n) kb (Conjunction [goal]) _counter
  = ask n kb (SingleGoal goal) _counter.
Proof.
  intros Hfin. destruct n as [|n]; [discriminate|].
  change (fol_bc_or (S n) kb goal ∅ []
            (λ theta_prime c,
               fol_bc_and (S n) kb [] (Some theta_prime) [] collect c)
            _counter
          = fol_bc_or (S n) kb goal ∅ [] collect _counter).
  by apply fol_bc_mono_mutual.
Qed.

Lemma counter_then_run r k (c : nat) :
  c ≤ counter_after r → (∀ c', c' ≤ counter_after (k c')) →
  c ≤ counter_after (then_run r k).
Proof.
  intros Hr Hk. unfold then_run. destruct (ending r); [|done..].
  simpl. etrans; [exact Hr|apply Hk].
Qed.

Lemma counter_fol_bc_or_clauses
    (unify_head : Expr → option (option Subst))
    (prove_body : list Expr → Subst → nat → run)
    (consumer : Subst → nat → run) candidates :
  (∀ goals theta c, c ≤ counter_after (prove_body goals theta c)) →
  (∀ theta c, c ≤ counter_after (consumer theta c)) →
  ∀ c, c ≤ counter_after
             (fol_bc_or_clauses unify_head prove_body consumer candidates c).
Proof.
  intros Hb Hk. induction candidates as [|clause candidates IH]; intros c;
    simpl; [done|].
  rewrite standardize_apart_spec.
  destruct (unify_head _) as [[theta'|]|]; simpl; [| |lia].
  - etrans; [|apply counter_then_run; [|exact IH]].
    + apply Nat.le_succ_diag_r.
    + destruct (_ <$> body clause); [etrans; [|apply Hk]|etrans; [|apply Hb]]; lia.
  - etrans; [|apply IH]. lia.
Qed.

Lemma counter_fol_bc_mutual kb n :
  (∀ goal theta visited consumer,
     (∀ th c, c ≤ counter_after (consumer th c)) →
     ∀ c, c ≤ counter_after (fol_bc_or n kb goal theta visited consumer c)) ∧
  (∀ goals theta visited consumer,
     (∀ th c, c ≤ counter_after (consumer th c)) →
     ∀ c, c ≤ counter_after (fol_bc_and n kb goals theta visited consumer c)).
Proof.
  induction n as [|n [IHor IHand]]; [split; intros; done|]. split.
  - intros goal theta visited consumer Hk c. simpl.
    destruct (substitute n goal theta); [|done].
    case_bool_decide; [done|].
    destruct (fetch_clauses_for_goal kb goal); [|done].
    apply counter_fol_bc_or_clauses; [|done]. intros. by apply IHand.
  - intros goals theta visited consumer Hk c. simpl.
    destruct theta; [|done]. destruct goals; [apply Hk|].
    apply IHor. intros. by apply IHand.
Qed.

(** X21. A query never decreases the counter of the fresh names, however it
    ends. *)
Theorem ask_counter_grows fuel kb query _counter :
  _counter ≤ counter_after (ask fuel kb query _counter).
Proof.
  destruct query; simpl; by apply counter_fol_bc_mutual.
Qed.

Lemma ask_yields_acyclic_witness :
  let goals := [Predicate "father" [Constant "abe"; Constant "homer"];
                Predicate "parent" [Constant "homer"; Constant "bart"]] in
  let theta : Subst :=
    <["_y2" := Constant "bart"]> (<["_x2" := Constant "homer"]> ∅) in
  let t := Function "f" [Var "_y2"; Var "z"] in
  theta ∈ yielded (ask 10 family_kb (Conjunction goals) 0) ∧
  ∃ t' n, ∀ m, n ≤ m →
    substitute m t theta = Some t' ∧ substitute m t' theta = Some t'.
Proof.
  intros goals theta t.
  assert (H : theta ∈ yielded (ask 10 family_kb (Conjunction goals) 0)).
  { assert (yielded (ask 10 family_kb (Conjunction goals) 0) = [theta]) as ->
      by (vm_compute; reflexivity).
    apply list_elem_of_here. }
  split; [exact H|].
  exact (ask_yields_acyclic 10 family_kb (Conjunction goals) 0 theta t H).
Defined.

Lemma ask_non_compound_goal_raises_witness :
  (args (Var "x") = None ∧ 2 ≤ 2) ∧
  ask 2 family_kb (SingleGoal (Var "x")) 5 = mkRun [] AttributeError 5.
Proof.
  split; [split; [reflexivity|lia]|].
  apply (ask_non_compound_goal_raises family_kb (Var "x") 5 2); [reflexivity|lia].
Defined.

Lemma ask_singleton_conjunction_witness :
  let goal := Predicate "ancestor" [Var "x"; Constant "bart"] in
  ending (ask 14 family_kb (SingleGoal goal) 0) = Finished ∧
  ask 15 family_kb (Conjunction [goal]) 0 = ask 14 family_kb (SingleGoal goal) 0.
Proof.
  intros goal.
  assert (H : ending (ask 14 family_kb (SingleGoal goal) 0) = Finished)
    by (vm_compute; reflexivity).
  split; [exact H|]. exact (ask_singleton_conjunction family_kb goal 0 14 H).
Defined.

Lemma then_run_yielded_l r k theta :
  ending (then_run r k) = Finished → theta ∈ yielded r →
  theta ∈ yielded (then_run r k).
Proof.
  intros Hfin Hin. apply then_run_finished in Hfin as [Hr _].
  unfold then_run. rewrite Hr. simpl. apply elem_of_app. by left.
Qed.

Lemma then_run_yielded_r r k theta :
  ending (then_run r k) = Finished →
  theta ∈ yielded (k (counter_after r)) →
  theta ∈ yielded (then_run r k).
Proof.
  intros Hfin Hin. apply then_run_finished in Hfin as [Hr _].
  unfold then_run. rewrite Hr. simpl. apply elem_of_app. by right.
Qed.

Lemma fol_bc_or_clauses_finds_fact
    (unify_head : Expr → option (option Subst))
    (prove_body : list Expr → Subst → nat → run)
    goal theta candidates :
  vars goal = [] → mkClause goal [] ∈ candidates →
  (∀ r, unify_head goal = Some r → r = Some theta) →
  ∀ c, ending (fol_bc_or_clauses unify_head prove_body collect candidates c)
       = Finished →
       theta ∈ yielded
                 (fol_bc_or_clauses unify_head prove_body collect candidates c).
Proof.
  intros Hg Hin Hu. induction candidates as [|clause candidates IH];
    intros c; [by apply elem_of_nil in Hin|].
  simpl. rewrite standardize_apart_spec. simpl.
  apply elem_of_cons in Hin as [<-|Hin].
  - simpl. rewrite inst_no_vars by done.
    destruct (unify_head goal) as [r|] eqn:Hr; [|done].
    rewrite (Hu r eq_refl). intros Hfin.
    apply then_run_yielded_l; [done|]. simpl. apply list_elem_of_here.
  - destruct (unify_head (inst (fresh (c + 1)) (head clause)))
      as [[theta'|]|]; [| by apply IH | done].
    intros Hfin. apply then_run_yielded_r; [done|]. apply IH; [done|].
    by apply then_run_finished in Hfin as [_ ?].
Qed.

(** X22. A goal without variables that was added as a fact is found: when
    the query for it comes to its end, the empty substitution is among the
    substitutions yielded. *)
Theorem ground_fact_is_found cs kb goal l fuel _counter :
  add_clauses KnowledgeBase_init cs = (kb, Finished) →
  args goal = Some l → vars goal = [] → mkClause goal [] ∈ cs →
  ending (ask fuel kb (SingleGoal goal) _counter) = Finished →
  ∅ ∈ yielded (ask fuel kb (SingleGoal goal) _counter).
Proof.
  intros Hkb Hl Hv Hin. destruct fuel as [|n]; [discriminate|]. simpl.
  assert (fetch_clauses_for_goal kb goal
          = Some (filter (λ c, signature (head c) = Some (name goal, length l))
                    cs)) as Hf.
  { apply add_clauses_init_consistent in Hkb as [Hcl Hidx].
    unfold fetch_clauses_for_goal. rewrite Hl. simpl. f_equal.
    fold (bucket kb (name goal) (length l)). by rewrite Hidx, Hcl. }
  destruct (substitute n goal ∅) as [current|] eqn:Hcur; [|discriminate].
  assert (current = goal) as ->.
  { apply (resolves_fun ∅ goal); [by exists n|apply resolves_empty]. }
  rewrite Hf.
  apply (fol_bc_or_clauses_finds_fact _ _ goal); [done| |].
  - apply list_elem_of_filter. split; [|done]. unfold signature. simpl.
    by rewrite Hl.
  - intros r Hr. destruct n as [|n]; [discriminate|]. rewrite unify_S in Hr.
    rewrite decide_True in Hr by done. congruence.
Qed.

Lemma ground_fact_is_found_witness :
  let goal := Predicate "father" [Constant "homer"; Constant "bart"] in
  (add_clauses KnowledgeBase_init family_clauses = (family_kb, Finished) ∧
   args goal = Some [Constant "homer"; Constant "bart"] ∧ vars goal = [] ∧
   mkClause goal [] ∈ family_clauses ∧
   ending (ask 5 family_kb (SingleGoal goal) 0) = Finished) ∧
  ∅ ∈ yielded (ask 5 family_kb (SingleGoal goal) 0).
Proof.
  intros goal.
  assert (H1 : add_clauses KnowledgeBase_init family_clauses
               = (family_kb, Finished)) by (vm_compute; reflexivity).
  assert (H2 : args goal = Some [Constant "homer"; Constant "bart"])
    by reflexivity.
  assert (H3 : vars goal = []) by reflexivity.
  assert (H4 : mkClause goal [] ∈ family_clauses)
    by (apply list_elem_of_further, list_elem_of_here).
  assert (H5 : ending (ask 5 family_kb (SingleGoal goal) 0) = Finished)
    by (vm_compute; reflexivity).
  split; [by repeat split|].
  exact (ground_fact_is_found family_clauses family_kb goal _ 5 0 H1 H2 H3 H4 H5).
Defined.

(** ** Knowledge bases of facts *)

Section facts_only.
Variable kb : KnowledgeBase.
Hypothesis fetched_facts :
  ∀ goal candidates clause,
    fetch_clauses_for_goal kb goal = Some candidates → clause ∈ candidates →
    body clause = [].

Lemma fol_bc_or_clauses_finishes (K : nat → Subst → nat → run)
    current theta visited candidates :
  stable K → finishes K → acyclic theta →
  (∀ clause, clause ∈ candidates → body clause = []) →
  ∀ c, ∃ N, ∀ n m, N ≤ n → N ≤ m →
    ending (fol_bc_or_clauses
              (λ h, unify n h current (Some theta))
              (λ body0 theta' c',
                 fol_bc_and n kb body0 (Some theta') visited (K m) c')
              (K m) candidates c) = Finished.
Proof.
  intros Hst Hfin Hac. induction candidates as [|clause candidates IH];
    intros Hbody c.
  { exists 0. done. }
  assert (body clause = []) as Hb by (apply Hbody; left).
  assert (∀ cl, cl ∈ candidates → body cl = []) as Hbody'
    by (intros; apply Hbody; by right).
  destruct (unify_returns_acyclic theta (inst (fresh (c + 1)) (head clause))
              current Hac)
    as (n1 & r & Hr).
  destruct r as [theta'|].
  - assert (acyclic theta') as Hac'.
    { by destruct (unify_sound n1 _ _ theta theta' Hac (Hr n1 (le_n _)))
        as (_ & ? & _). }
    destruct (Hfin theta' (c + 1) Hac') as [n2 Hn2].
    destruct (IH Hbody' (counter_after (K n2 theta' (c + 1)))) as [n3 Hn3].
    exists ((n1 `max` n2) `max` n3). intros n m Hn Hm. simpl.
    rewrite standardize_apart_spec. simpl. rewrite Hr by lia. rewrite Hb. simpl.
    rewrite (Hst n2 m theta' (c + 1)) by (done || lia).
    unfold then_run. rewrite Hn2. simpl. apply Hn3; lia.
  - destruct (IH Hbody' (c + 1)) as [n3 Hn3].
    exists (n1 `max` n3). intros n m Hn Hm. simpl.
    rewrite standardize_apart_spec. simpl. rewrite Hr by lia.
    apply Hn3; lia.
Qed.

Lemma fol_bc_or_finishes (K : nat → Subst → nat → run)
    goal l theta visited c :
  stable K → finishes K → args goal = Some l → acyclic theta →
  ∃ N, ∀ n, N ≤ n →
    ending (fol_bc_or n kb goal theta visited (K n) c) = Finished.
Proof.
  intros Hst Hfin Hl Hac. destruct (Hac goal) as [current [n0 Hcur]].
  destruct (fetch_clauses_for_goal kb goal) as [candidates|] eqn:Hf.
  2:{ unfold fetch_clauses_for_goal in Hf. by rewrite Hl in Hf. }
  destruct (fol_bc_or_clauses_finishes K current theta
              (visited_key current theta :: visited) candidates Hst Hfin Hac
              (λ cl Hin, fetched_facts goal candidates cl Hf Hin) c) as [N HN].
  exists (S (n0 `max` N)). intros n Hn. destruct n as [|n]; [lia|]. simpl.
  rewrite (substitute_mono n0 n goal theta current) by (done || lia).
  case_bool_decide; [done|]. rewrite Hf. apply HN; lia.
Qed.

Lemma fol_bc_and_finishes (k : Subst → nat → run) goals :
  (∀ theta c, acyclic theta → ending (k theta c) = Finished) →
  Forall (λ goal, is_compound goal = true) goals →
  ∀ theta visited c, acyclic theta →
  ∃ N, ∀ n, N ≤ n →
    ending (fol_bc_and n kb goals (Some theta) visited k c) = Finished.
Proof.
  intros Hk Hgoals. induction Hgoals as [|first rest Hfirst _ IH];
    intros theta visited c Hac.
  { exists 1. intros [|n] Hn; [lia|]. simpl. by apply Hk. }
  assert (∃ l, args first = Some l) as [l Hl] by (destruct first; by eauto).
  destruct (fol_bc_or_finishes
              (λ n theta' c', fol_bc_and n kb rest (Some theta') visited k c')
              first l theta visited c) as [N HN]; try done.
  - intros n m th c' Hle Hfin. by apply fol_bc_mono_mutual.
  - intros th c' Hac'. destruct (IH th visited c' Hac') as [n Hn].
    exists n. by apply Hn.
  - exists (S N). intros [|n] Hn; [lia|]. simpl. apply HN. lia.
Qed.

End facts_only.

(** X24. Against a knowledge base of facts, clauses with an empty body, every
    query for compounds comes to its end: there is no recursion to diverge
    in, and [unify] returns. *)
Theorem ask_facts_returns cs kb query _counter :
  add_clauses KnowledgeBase_init cs = (kb, Finished) →
  Forall (λ clause, body clause = []) cs →
  Forall (λ goal, is_compound goal = true) (query_goals query) →
  ∃ N, ∀ n, N ≤ n → ending (ask n kb query _counter) = Finished.
Proof.
  intros Hkb Hcs Hq.
  assert (∀ goal candidates clause,
            fetch_clauses_for_goal kb goal = Some candidates →
            clause ∈ candidates → body clause = []) as Hfacts.
  { intros goal candidates clause Hf Hin.
    apply add_clauses_init_consistent in Hkb as [Hcl Hidx].
    apply (fetch_clauses_for_goal_sound kb goal candidates Hidx) in Hin; [|done].
    rewrite Hcl in Hin. rewrite Forall_forall in Hcs. by apply Hcs. }
  destruct query as [goal|goals]; simpl in *.
  - inversion Hq as [|? ? Hg _]; subst.
    assert (∃ l, args goal = Some l) as [l Hl] by (destruct goal; by eauto).
    apply (fol_bc_or_finishes kb Hfacts (λ _, collect) goal l ∅ [] _counter);
      [done| |done|apply acyclic_empty].
    intros theta c _. by exists 0.
  - apply (fol_bc_and_finishes kb Hfacts collect goals); [done|done|].
    apply acyclic_empty.
Qed.

Lemma ask_facts_returns_witness :
  let cs := [mkClause (Predicate "father" [Constant "abe"; Constant "homer"]) [];
             mkClause (Predicate "father" [Constant "homer"; Constant "bart"]) []] in
  let kb := (add_clauses KnowledgeBase_init cs).1 in
  let query := Conjunction [Predicate "father" [Var "x"; Var "y"];
                            Predicate "father" [Var "y"; Var "z"]] in
  (add_clauses KnowledgeBase_init cs = (kb, Finished) ∧
   Forall (λ clause, body clause = []) cs ∧
   Forall (λ goal, is_compound goal = true) (query_goals query)) ∧
  ∃ N, ∀ n, N ≤ n → ending (ask n kb query 0) = Finished.
Proof.
  intros cs kb query.
  assert (H1 : add_clauses KnowledgeBase_init cs = (kb, Finished))
    by (vm_compute; reflexivity).
  assert (H2 : Forall (λ clause, body clause = []) cs)
    by (repeat constructor).
  assert (H3 : Forall (λ goal, is_compound goal = true) (query_goals query))
    by (repeat constructor).
  split; [by repeat split|].
  exact (ask_facts_returns cs kb query 0 H1 H2 H3).
Defined.

(** X25. Soundness of a query for one goal: under every substitution that
    [ask] yields for it, the goal resolves to an atom that follows from the
    clauses added to the knowledge base. *)
Theorem single_goal_sound cs kb fuel goal _counter theta :
  add_clauses KnowledgeBase_init cs = (kb, Finished) →
  theta ∈ yielded (ask fuel kb (SingleGoal goal) _counter) →
  ∃ t n, (∀ m, n ≤ m → substitute m goal theta = Some t) ∧ derivable cs t.
Proof.
  intros Hkb Hth.
  pose proof (ask_sound cs kb fuel (SingleGoal goal) _counter Hkb) as H.
  unfold yields_only in H. rewrite Forall_forall in H.
  specialize (H theta Hth). simpl in H. inversion H as [|? ? Hg _]; subst.
  destruct Hg as (t & [n Hn] & Hd). exists t, n. split; [|done].
  intros m Hm. by eapply substitute_mono.
Qed.

Lemma single_goal_sound_witness :
  let goal := Predicate "father" [Constant "homer"; Constant "bart"] in
  (add_clauses KnowledgeBase_init family_clauses = (family_kb, Finished) ∧
   ∅ ∈ yielded (ask 5 family_kb (SingleGoal goal) 0)) ∧
  ∃ t n, (∀ m, n ≤ m → substitute m goal ∅ = Some t) ∧
         derivable family_clauses t.
Proof.
  intros goal.
  assert (H1 : add_clauses KnowledgeBase_init family_clauses
               = (family_kb, Finished)) by (vm_compute; reflexivity).
  assert (H2 : ∅ ∈ yielded (ask 5 family_kb (SingleGoal goal) 0)).
  { assert (yielded (ask 5 family_kb (SingleGoal goal) 0) = [∅]) as ->
      by (vm_compute; reflexivity).
    apply list_elem_of_here. }
  split; [by split|].
  exact (single_goal_sound family_clauses family_kb 5 goal 0 ∅ H1 H2).
Defined.
